(** * The mask extension: [mask_string], [mask_email], [scramble_string]

    A shallow embedding of [src/mask_extension.cpp].  Every evaluator is a
    lambda handed to one of the host's vectorised executors; the lambdas are
    embedded as functions on byte lists, the executors as a row loop over the
    argument columns of a chunk.

    - a [std::string] / [string_t] is a [list byte];
    - [int64_t] and [size_t] values are integers of [Z], conversions and
      signed arithmetic are reduced modulo [2^64] explicitly;
    - an access the C++ code performs unchecked ([GetData()[0]],
      [operator[]]) is checked in the model and reports [OutOfBounds];
      [substr] reports [OutOfRange] where the library throws;
    - the random engine of [scramble_string] is an interface
      ([UniformRandomBitGenerator]) whose state is threaded explicitly. *)

From Stdlib Require Import ZArith Lia Factorial.
From Stdlib Require Import Strings.Byte.
From stdpp Require Import base tactics option list numbers strings sorting.

Local Open Scope Z_scope.

(** ** Machine integers *)

Module Int.

Definition modulus : Z := 2 ^ 64.
Definition int64_min : Z := - 2 ^ 63.
Definition int64_max : Z := 2 ^ 63 - 1.

(** Reduction of a mathematical integer to its [int64_t] representative
    (two's complement): what a signed addition leaves in the register, and
    the [size_t -> int64_t] conversion. *)
Definition to_int64 (z : Z) : Z := (z + 2 ^ 63) `mod` modulus - 2 ^ 63.

(** Conversion to [size_t]. *)
Definition to_size_t (z : Z) : Z := z `mod` modulus.

Definition is_int64 (z : Z) : Prop := int64_min ≤ z ≤ int64_max.

End Int.

(** ** Outcomes of a row computation *)

Inductive fault : Type :=
  | OutOfBounds (idx len : nat)   (* unchecked read or write at [idx] of a buffer of [len] bytes *)
  | OutOfRange (pos size : Z)     (* [std::out_of_range] thrown by [substr] *)
  | NoSuchRow (row : nat).        (* a column has no value at [row] *)

Inductive res (A : Type) : Type :=
  | Ok (a : A)
  | Fault (f : fault).
Arguments Ok {A} a.
Arguments Fault {A} f.

#[global] Instance res_ret : MRet res := λ A a, Ok a.
#[global] Instance res_bind : MBind res := λ A B f m,
  match m with Ok a => f a | Fault e => Fault e end.
#[global] Instance res_fmap : FMap res := λ A B f m,
  match m with Ok a => Ok (f a) | Fault e => Fault e end.

#[global] Instance fault_eq_dec : EqDecision fault.
Proof. solve_decision. Defined.
#[global] Instance byte_eq_dec : EqDecision byte := Byte.byte_eq_dec.
#[global] Instance byte_inhabited : Inhabited byte := populate x00.
#[global] Instance res_eq_dec `{EqDecision A} : EqDecision (res A).
Proof. solve_decision. Defined.

(** ** [std::string] *)

Abbreviation bytes := (list byte).

Module Str.

Definition npos : Z := Int.modulus - 1.

Definition size (s : bytes) : Z := Z.of_nat (length s).

(** [s.substr(pos, count)]: throws when [pos > size()], otherwise the
    [min(count, size() - pos)] bytes from [pos] on. *)
Definition substr (s : bytes) (pos count : Z) : res bytes :=
  if size s <? pos then Fault (OutOfRange pos (size s))
  else
    let rlen := Z.min count (size s - pos) in
    Ok (take (Z.to_nat rlen) (drop (Z.to_nat pos) s)).

(** [std::string(count, ch)]. *)
Definition fill (count : Z) (ch : byte) : bytes := replicate (Z.to_nat count) ch.

(** [s.find(ch)]: position of the first occurrence, [None] for [npos]. *)
Fixpoint find (ch : byte) (s : bytes) : option nat :=
  match s with
  | [] => None
  | b :: s' => if decide (b = ch) then Some 0%nat else S <$> find ch s'
  end.

(** [data[k]] without a bounds check. *)
Definition at_unchecked (s : bytes) (k : nat) : res byte :=
  match s !! k with
  | Some b => Ok b
  | None => Fault (OutOfBounds k (length s))
  end.

(** Sizes a [std::string] can have: [max_size()] is below [2^63] on every
    64-bit ABI (a [string_t] even holds fewer than [2^32] bytes), so
    [int64_t input_size = input.size()] keeps the value. *)
Definition representable (s : bytes) : Prop := size s ≤ Int.int64_max.

Definition of_string (s : string) : bytes := String.list_byte_of_string s.
Arguments of_string s%_string.

End Str.

(** ** Columns and the host's executors *)

(** A column of a chunk is read through the host's accessor only: the value
    of row [i] of column [v] is [v !! i].  The columns hold values; rows with
    a NULL argument are answered by the host and never reach a lambda. *)

Definition GetValue {A} (v : list A) (row : nat) : res A :=
  match v !! row with
  | Some a => Ok a
  | None => Fault (NoSuchRow row)
  end.

(** The row loop shared by the executors: rows [0 .. count-1] in order, the
    first fault aborts the batch. *)
Fixpoint for_rows {B} (f : nat → res B) (first count : nat) : res (list B) :=
  match count with
  | O => Ok []
  | S count' =>
      r ← f first;
      rs ← for_rows f (S first) count';
      Ok (r :: rs)
  end.

(** The same loop for a lambda that reads and writes storage outliving the
    row (a [static thread_local] captured by the closure): the storage is
    carried from one row to the next. *)
Fixpoint for_rows_with_state {St B} (f : nat → St → res (B * St))
    (first count : nat) (st : St) : res (list B * St) :=
  match count with
  | O => Ok ([], st)
  | S count' =>
      '(r, st) ← f first st;
      '(rs, st) ← for_rows_with_state f (S first) count' st;
      Ok (r :: rs, st)
  end.

Module UnaryExecutor.
Definition Execute {A B} (input : list A) (count : nat) (fn : A → res B)
  : res (list B) :=
  for_rows (λ i, a ← GetValue input i; fn a) 0 count.

Definition ExecuteWithState {A B St} (input : list A) (count : nat)
    (fn : A → St → res (B * St)) (st : St) : res (list B * St) :=
  for_rows_with_state (λ i st, a ← GetValue input i; fn a st) 0 count st.
End UnaryExecutor.

Module TernaryExecutor.
Definition Execute {A B C R} (a : list A) (b : list B) (c : list C)
    (count : nat) (fn : A → B → C → res R) : res (list R) :=
  for_rows (λ i, x ← GetValue a i; y ← GetValue b i; z ← GetValue c i; fn x y z)
           0 count.
End TernaryExecutor.

(** ** [mask_string] *)

Record MaskStringArgs : Type := {
  name_vector : list bytes;     (* args.data[0] *)
  start_vector : list Z;        (* args.data[1] *)
  length_vector : list Z;       (* args.data[2] *)
  mask_vector : list bytes;     (* args.data[3] *)
  mask_args_size : nat          (* args.size() *)
}.

(** The lambda of [MaskStringScalarFun]; it captures [mask_vector] by
    reference and reads its row 0 on every call. *)
Definition MaskStringLambda (mask_vector : list bytes)
    (name : bytes) (start length : Z) : res bytes :=
  let input := name in
  let input_size := Int.to_int64 (Str.size input) in
  let start := Z.max 0 (Z.min (Int.to_int64 (start - 1)) input_size) in
  let end_ := Z.max start (Z.min (Int.to_int64 (start + length)) input_size) in
  v ← GetValue mask_vector 0;
  mask_char ← Str.at_unchecked v 0;
  pre ← Str.substr input 0 (Int.to_size_t start);
  post ← Str.substr input (Int.to_size_t end_) Str.npos;
  Ok (pre
      ++ Str.fill (Int.to_size_t (Int.to_int64 (end_ - start))) mask_char
      ++ post).

(** Lines 75 and 76 on their own: the clamped start and end. *)
Definition mask_start (input_size start : Z) : Z :=
  Z.max 0 (Z.min (Int.to_int64 (start - 1)) input_size).
Definition mask_end (input_size start length : Z) : Z :=
  Z.max start (Z.min (Int.to_int64 (start + length)) input_size).

Definition MaskStringScalarFun (args : MaskStringArgs) : res (list bytes) :=
  TernaryExecutor.Execute
    (name_vector args) (start_vector args) (length_vector args)
    (mask_args_size args)
    (MaskStringLambda (mask_vector args)).

(** The same chunk with another fourth column. *)
Definition with_mask_vector (args : MaskStringArgs) (masks : list bytes)
  : MaskStringArgs :=
  {| name_vector := name_vector args;
     start_vector := start_vector args;
     length_vector := length_vector args;
     mask_vector := masks;
     mask_args_size := mask_args_size args |}.

(** A chunk as the host builds it: every column has a value for each of
    the [args.size()] rows, and the strings have sizes a [std::string] can
    have. *)
Definition chunk_wf (args : MaskStringArgs) : Prop :=
  (mask_args_size args ≤ length (name_vector args))%nat
  ∧ (mask_args_size args ≤ length (start_vector args))%nat
  ∧ (mask_args_size args ≤ length (length_vector args))%nat
  ∧ (mask_args_size args ≤ length (mask_vector args))%nat
  ∧ Forall Str.representable (name_vector args).

(** A three-row chunk whose fourth column is not a constant. *)
Definition example_chunk : MaskStringArgs :=
  {| name_vector := [Str.of_string "hello world"; Str.of_string "abc"; Str.of_string ""];
     start_vector := [3; -2; 1];
     length_vector := [5; 2; 4];
     mask_vector := [Str.of_string "*"; Str.of_string "#"; Str.of_string ""];
     mask_args_size := 3 |}.

(** One SQL call [mask_string(S, s, n, fill)] on a single row. *)
Definition mask_string (S : bytes) (s n : Z) (fill : bytes) : res bytes :=
  MaskStringLambda [fill] S s n.

(** ** [mask_email] *)

Definition at_sign : byte := "@"%byte.
Definition asterisk : byte := "*"%byte.

(** The lambda of [MaskEmailScalarFun]. *)
Definition MaskEmailLambda (email : bytes) : res bytes :=
  let input := email in
  match Str.find at_sign input with
  | None => Ok input                               (* at_pos == string::npos *)
  | Some at_pos =>
      if decide (at_pos = 0%nat) then Ok input     (* at_pos == 0 *)
      else
        first ← Str.substr input 0 1;
        domain ← Str.substr input (Z.of_nat at_pos) Str.npos;
        Ok (first
            ++ Str.fill (Int.to_size_t (Z.of_nat at_pos - 1)) asterisk
            ++ domain)
  end.

Definition MaskEmailScalarFun (email_vector : list bytes) (count : nat)
  : res (list bytes) :=
  UnaryExecutor.Execute email_vector count MaskEmailLambda.

Definition mask_email (S : bytes) : res bytes := MaskEmailLambda S.

(** ** [scramble_string] *)

(** What the lambda needs from [std::mt19937] and
    [std::uniform_int_distribution<size_t>]: an engine state, its
    construction from a seed, and a draw [dis(a, b)(gen)] that advances the
    engine and lands in the closed range [[a, b]]. *)
Class UniformRandomBitGenerator (G : Type) : Type := {
  seed_engine : N → G;
  uniform_int : nat → nat → G → nat * G;
  uniform_int_range a b g :
    (a ≤ b)%nat → (a ≤ (uniform_int a b g).1 ≤ b)%nat
}.

(** [std::swap(s[i], s[j])], both accesses unchecked. *)
Definition swap {A} (s : list A) (i j : nat) : res (list A) :=
  match s !! i, s !! j with
  | Some x, Some y => Ok (<[i := y]> (<[j := x]> s))
  | None, _ => Fault (OutOfBounds i (length s))
  | _, None => Fault (OutOfBounds j (length s))
  end.

(** The loop [for (size_t i = ...; i > 0; i--)], entered with the current
    value of [i]. *)
Fixpoint fisher_yates_loop {A} `{UniformRandomBitGenerator G}
    (i : nat) (scrambled : list A) (gen : G) : res (list A * G) :=
  match i with
  | O => Ok (scrambled, gen)
  | S i' =>
      let '(j, gen) := uniform_int 0 i gen in
      scrambled ← swap scrambled i j;
      fisher_yates_loop i' scrambled gen
  end.

(** The [static thread_local] engine of the lambda: absent until the first
    non-empty row a thread scrambles, then kept for the life of the thread. *)
Definition thread_state (G : Type) : Type := option G.

(** The lambda of [ScrambleStringScalarFun].  [rd] is the value the
    thread's [std::random_device] hands out if the engine still has to be
    constructed. *)
Definition ScrambleStringLambda `{UniformRandomBitGenerator G} (rd : N)
    (input_str : bytes) (ts : thread_state G) : res (bytes * thread_state G) :=
  let input := input_str in
  match input with
  | [] => Ok (input, ts)
  | _ :: _ =>
      let scrambled := input in
      let gen := match ts with Some g => g | None => seed_engine rd end in
      '(scrambled, gen) ← fisher_yates_loop (length scrambled - 1) scrambled gen;
      Ok (scrambled, Some gen)
  end.

Definition ScrambleStringScalarFun `{UniformRandomBitGenerator G} (rd : N)
    (input_vector : list bytes) (count : nat) (ts : thread_state G)
  : res (list bytes * thread_state G) :=
  UnaryExecutor.ExecuteWithState input_vector count (ScrambleStringLambda rd) ts.

(** *** Two engines *)

(** A linear congruential engine (the constants of [std::minstd_rand]);
    a draw reduces the next state into the requested range. *)
Definition lcg_next (x : N) : N := ((48271 * x) `mod` 2147483647)%N.

#[global, refine] Instance lcg_engine : UniformRandomBitGenerator N := {|
  seed_engine s := s;
  uniform_int a b g :=
    let g' := lcg_next g in
    ((a + N.to_nat (g' `mod` N.of_nat (b - a + 1))%N)%nat, g')
|}.
Proof.
  intros a b g Hab. cbv zeta. cbn [fst].
  assert (lcg_next g `mod` N.of_nat (b - a + 1) < N.of_nat (b - a + 1))%N
    by (apply N.mod_lt; lia).
  revert H. generalize (lcg_next g `mod` N.of_nat (b - a + 1))%N. lia.
Defined.

(** A scripted engine: the state is the list of draws still to be handed
    out.  A scripted draw outside the requested range is pinned to it, so a
    script that stays in range is replayed as written. *)
Abbreviation scripted := (list nat).

#[global, refine] Instance scripted_engine : UniformRandomBitGenerator scripted := {|
  seed_engine _ := [];
  uniform_int a b g :=
    match g with
    | [] => (a, [])
    | j :: g' => (Nat.max a (Nat.min j b), g')
    end
|}.
Proof. intros a b [|j g] Hab; simpl; lia. Defined.

(** A scripted engine that also records what is asked of it: the state is
    the script still to be handed out and the ranges [(a, b)] requested so
    far, oldest first. *)
Abbreviation recording := (list nat * list (nat * nat))%type.

#[global, refine] Instance recording_engine : UniformRandomBitGenerator recording := {|
  seed_engine _ := ([], []);
  uniform_int a b g :=
    let '(j, ds) := uniform_int (G:=scripted) a b g.1 in
    (j, (ds, g.2 ++ [(a, b)]))
|}.
Proof.
  intros a b [ds asked] Hab. cbn [fst snd].
  pose proof (uniform_int_range (G:=scripted) a b ds Hab) as Hj.
  by destruct (uniform_int (G:=scripted) a b ds).
Defined.

(** ** Reference definitions, following the wording of the specification *)

Definition clamp (x lo hi : Z) : Z := Z.max lo (Z.min x hi).

(** §4.2: [s0 = clamp(s - 1, 0, L)], [e = clamp(s0 + n, s0, L)], output
    [S[0 : s0] ++ c * (e - s0) ++ S[e : L]]. *)
Definition mask_string_spec (S : bytes) (s n : Z) (c : byte) : bytes :=
  let L := Z.of_nat (length S) in
  let s0 := clamp (s - 1) 0 L in
  let e := clamp (s0 + n) s0 L in
  take (Z.to_nat s0) S ++ replicate (Z.to_nat (e - s0)) c ++ drop (Z.to_nat e) S.

(** §4.3: unchanged without an at sign or with the first one at position 0,
    otherwise [S[0] ++ '*' * (p - 1) ++ S[p : L]]. *)
Definition mask_email_spec (S : bytes) : bytes :=
  match list_find (λ b, b = at_sign) S with
  | None => S
  | Some (0%nat, _) => S
  | Some (p, _) => take 1 S ++ replicate (p - 1) asterisk ++ drop p S
  end.

(** [p] is the position of the first at sign of [S]. *)
Definition first_at_sign (S : bytes) (p : nat) : Prop :=
  S !! p = Some at_sign ∧ ∀ k, (k < p)%nat → S !! k ≠ Some at_sign.

(** Bytes in ascending order of their numeric value. *)
Definition byte_le (a b : byte) : Prop := (Byte.to_N a ≤ Byte.to_N b)%N.
#[global] Instance byte_le_dec a b : Decision (byte_le a b) :=
  N.le_dec (Byte.to_N a) (Byte.to_N b).
Definition sorted_bytes (s : bytes) : bytes := merge_sort byte_le s.

(** Number of occurrences of a byte. *)
Definition count_byte (c : byte) (s : bytes) : nat :=
  length (filter (λ b, b = c) s).

(** The draw sequences the loop can consume when it is entered at [i]: one
    draw [j ≤ i] for [i], then the draws for [i - 1], down to [1]. *)
Fixpoint valid_draws (i : nat) (ds : list nat) : Prop :=
  match i, ds with
  | O, [] => True
  | S i', j :: ds' => (j ≤ i)%nat ∧ valid_draws i' ds'
  | _, _ => False
  end.

Fixpoint all_draws (i : nat) : list (list nat) :=
  match i with
  | O => [[]]
  | S i' => j ← seq 0 (S i); (j ::.) <$> all_draws i'
  end.

(** The scramble loop on a script, result only: entered at [i], and as the
    lambda enters it. *)
Definition run_script {A} (i : nat) (s : list A) (ds : scripted) : res (list A) :=
  fst <$> fisher_yates_loop i s ds.

Definition shuffle_with {A} (ds : scripted) (s : list A) : res (list A) :=
  run_script (length s - 1) s ds.

(** The ranges of the specification: "for [i] descending from [L-1] to [1],
    draw [j] from [[0, i]]", for a loop entered at [i]. *)
Fixpoint requests_from (i : nat) : list (nat * nat) :=
  match i with
  | O => []
  | S i' => (0%nat, i) :: requests_from i'
  end.

(** The outcomes of independent draws from a list of requested ranges: one
    value of [[a, b]] for each request [(a, b)], in order.  With uniform
    independent draws every one of them is equally likely. *)
Fixpoint scripts_for (asked : list (nat * nat)) : list (list nat) :=
  match asked with
  | [] => [[]]
  | (a, b) :: asked' => j ← seq a (S b - a); (j ::.) <$> scripts_for asked'
  end.

(** The arrangement of the positions [0 .. n] the loop of the lambda
    produces on a script. *)
Definition arrangement (n : nat) (ds : list nat) : res (list nat) :=
  fst <$> fisher_yates_loop n (seq 0 (S n)) ((ds, []) : recording).

(** ** Further notions used by the properties below *)

(** The range of the SQL type [INTEGER] under which [LoadInternal]
    registers the start and the length of [mask_string]. *)
Definition is_int32 (z : Z) : Prop := - 2 ^ 31 ≤ z ≤ 2 ^ 31 - 1.

(** A [string_t] keeps its length in 32 bits. *)
Definition fits_string_t (s : bytes) : Prop := Str.size s < 2 ^ 32.

(** A string with the bytes at positions [a .. b-1] overwritten by [c]. *)
Definition masked (S : bytes) (a b : nat) (c : byte) : bytes :=
  take a S ++ replicate (b - a) c ++ drop b S.

(** Every row of the batch has the fill value of row 0. *)
Definition constant_mask (args : MaskStringArgs) : Prop :=
  ∀ i, (i < mask_args_size args)%nat →
       mask_vector args !! i = mask_vector args !! 0%nat.

(** * Properties *)

(** ** Machine integers *)

Lemma to_int64_id z : Int.is_int64 z → Int.to_int64 z = z.
Proof.
  unfold Int.is_int64, Int.int64_min, Int.int64_max, Int.to_int64, Int.modulus.
  intros Hz. rewrite Z.mod_small; lia.
Qed.

Lemma to_int64_range z : Int.is_int64 (Int.to_int64 z).
Proof.
  unfold Int.is_int64, Int.int64_min, Int.int64_max, Int.to_int64, Int.modulus.
  pose proof (Z.mod_pos_bound (z + 2 ^ 63) (2 ^ 64)). lia.
Qed.

(** A non-negative value never grows when it is reduced. *)
Lemma to_int64_le z : 0 ≤ z → Int.to_int64 z ≤ z.
Proof.
  unfold Int.to_int64, Int.modulus. intros Hz.
  pose proof (Z.mod_le (z + 2 ^ 63) (2 ^ 64)). lia.
Qed.

Lemma to_size_t_id z : 0 ≤ z < Int.modulus → Int.to_size_t z = z.
Proof. unfold Int.to_size_t. intros Hz. by rewrite Z.mod_small. Qed.

(** ** [std::string] operations *)

Lemma size_nonneg (S : bytes) : 0 ≤ Str.size S.
Proof. unfold Str.size. lia. Qed.

Lemma substr_prefix (S : bytes) (k : Z) :
  0 ≤ k ≤ Str.size S → Str.substr S 0 k = Ok (take (Z.to_nat k) S).
Proof.
  intros Hk. unfold Str.substr.
  destruct (Z.ltb_spec (Str.size S) 0) as [Hneg|_]; [lia|].
  cbv zeta. rewrite Z.sub_0_r, Z.min_l by lia. done.
Qed.

Lemma substr_suffix (S : bytes) (k : Z) :
  0 ≤ k ≤ Str.size S → Str.size S ≤ Str.npos →
  Str.substr S k Str.npos = Ok (drop (Z.to_nat k) S).
Proof.
  intros Hk Hsz. unfold Str.substr.
  destruct (Z.ltb_spec (Str.size S) k) as [Hneg|_]; [lia|].
  cbv zeta. rewrite Z.min_r by lia. f_equal.
  apply take_ge. rewrite length_drop. unfold Str.size in *. lia.
Qed.

Lemma representable_npos (S : bytes) : Str.representable S → Str.size S ≤ Str.npos.
Proof.
  unfold Str.representable, Int.int64_max, Str.npos, Int.modulus. lia.
Qed.

Lemma input_size_id (S : bytes) :
  Str.representable S → Int.to_int64 (Str.size S) = Str.size S.
Proof.
  intros HS. apply to_int64_id. pose proof (size_nonneg S).
  unfold Int.is_int64, Int.int64_min, Str.representable in *. lia.
Qed.

(** ** [mask_string]: what the lambda computes *)

(** The clamped bounds always delimit a region of the input, whatever the
    two sums wrapped to. *)
Lemma mask_bounds (L s n : Z) :
  0 ≤ L →
  0 ≤ mask_start L s ≤ mask_end L (mask_start L s) n
  ∧ mask_end L (mask_start L s) n ≤ L.
Proof. unfold mask_start, mask_end. lia. Qed.

Lemma MaskStringLambda_eval (mask_vector : list bytes) (c : byte) (rest : bytes)
    (S : bytes) (s n : Z) :
  mask_vector !! 0%nat = Some (c :: rest) →
  Str.representable S →
  MaskStringLambda mask_vector S s n =
    let a := mask_start (Str.size S) s in
    let b := mask_end (Str.size S) a n in
    Ok (take (Z.to_nat a) S ++ replicate (Z.to_nat (b - a)) c ++ drop (Z.to_nat b) S).
Proof.
  intros Hrow HS. unfold MaskStringLambda, GetValue. rewrite Hrow.
  cbn [mbind res_bind Str.at_unchecked lookup list_lookup].
  rewrite (input_size_id S HS).
  fold (mask_start (Str.size S) s).
  fold (mask_end (Str.size S) (mask_start (Str.size S) s) n).
  pose proof (size_nonneg S) as HL.
  destruct (mask_bounds (Str.size S) s n HL) as [Hab HbL].
  set (a := mask_start (Str.size S) s) in *.
  set (b := mask_end (Str.size S) a n) in *.
  assert (Hmax : Str.size S < Int.modulus).
  { unfold Str.representable, Int.int64_max, Int.modulus in *. lia. }
  rewrite (to_size_t_id a), (to_size_t_id b) by lia.
  rewrite (to_int64_id (b - a)).
  2:{ unfold Str.representable, Int.is_int64, Int.int64_min, Int.int64_max in *. lia. }
  rewrite (to_size_t_id (b - a)) by lia.
  rewrite substr_prefix by lia.
  rewrite substr_suffix by (auto using representable_npos; lia).
  reflexivity.
Qed.

Lemma masked_length (S : bytes) (a b : nat) (c : byte) :
  (a ≤ b ≤ length S)%nat →
  length (take a S ++ replicate (b - a) c ++ drop b S) = length S.
Proof.
  intros Hab. rewrite !length_app, length_take, length_replicate, length_drop. lia.
Qed.

(** The lambda agrees with the reference definition as long as neither
    [start - 1] nor [start + length] leaves the [int64_t] range. *)
Lemma mask_string_refines_spec (S : bytes) (s n : Z) (c : byte) (rest : bytes) :
  Str.representable S →
  Int.int64_min < s ≤ Int.int64_max →
  Int.int64_min ≤ n →
  clamp (s - 1) 0 (Str.size S) + n ≤ Int.int64_max →
  mask_string S s n (c :: rest) = Ok (mask_string_spec S s n c).
Proof.
  intros HS Hs Hn Hsum. unfold mask_string.
  rewrite (MaskStringLambda_eval _ c rest) by done. cbv zeta.
  unfold mask_string_spec, mask_start, mask_end. fold (Str.size S).
  pose proof (size_nonneg S) as HL.
  rewrite (to_int64_id (s - 1)) by (unfold Int.is_int64, Int.int64_min, Int.int64_max in *; lia).
  fold (clamp (s - 1) 0 (Str.size S)).
  rewrite (to_int64_id (clamp (s - 1) 0 (Str.size S) + n)).
  - reflexivity.
  - unfold clamp, Int.is_int64, Int.int64_min, Int.int64_max in *. lia.
Qed.

(** An empty region leaves the input as it is, also where a sum wraps. *)
Lemma mask_string_pass_through (S : bytes) (s n : Z) (c : byte) (rest : bytes) :
  Str.representable S → Int.is_int64 s → Int.is_int64 n →
  n ≤ 0 ∨ s > Str.size S →
  mask_string S s n (c :: rest) = Ok S.
Proof.
  intros HS Hs Hn Hcase. unfold mask_string.
  rewrite (MaskStringLambda_eval _ c rest) by done. cbv zeta.
  pose proof (size_nonneg S) as HL.
  assert (Hend : mask_end (Str.size S) (mask_start (Str.size S) s) n
                 = mask_start (Str.size S) s).
  { unfold mask_end, mask_start, Str.representable,
      Int.is_int64, Int.int64_min, Int.int64_max in *.
    destruct Hcase as [Hn0|HsL].
    - set (a := Z.max 0 (Z.min (Int.to_int64 (s - 1)) (Str.size S))).
      assert (0 ≤ a ≤ Str.size S) by (unfold a; lia).
      rewrite (to_int64_id (a + n))
        by (unfold Int.is_int64, Int.int64_min, Int.int64_max; lia).
      lia.
    - rewrite (to_int64_id (s - 1))
        by (unfold Int.is_int64, Int.int64_min, Int.int64_max; lia).
      lia. }
  rewrite Hend, Z.sub_diag. simpl. by rewrite take_drop.
Qed.

(** C7. For every input string, start, length and fill byte the output of
    [mask_string] is produced (no fault) and has the byte length of the
    input. *)
Theorem mask_string_preserves_length (S : bytes) (s n : Z) (c : byte) (rest : bytes) :
  Str.representable S →
  ∃ out, mask_string S s n (c :: rest) = Ok out ∧ length out = length S.
Proof.
  intros HS. unfold mask_string.
  rewrite (MaskStringLambda_eval _ c rest) by done. cbv zeta.
  eexists. split; [reflexivity|].
  destruct (mask_bounds (Str.size S) s n (size_nonneg S)) as [Hab HbL].
  rewrite Z2Nat.inj_sub by lia.
  apply masked_length. unfold Str.size in *. lia.
Qed.

Lemma mask_string_preserves_length_witness :
  Str.representable (Str.of_string "hello world")
  ∧ ∃ out, mask_string (Str.of_string "hello world") 1 100 (Str.of_string "*")
           = Ok out
         ∧ length out = length (Str.of_string "hello world").
Proof.
  split.
  - vm_compute. discriminate.
  - apply (mask_string_preserves_length (Str.of_string "hello world") 1 100
             "*"%byte []).
    vm_compute. discriminate.
Defined.

(** C1. At a length for which [start + length] leaves the [int64_t] range
    the sum wraps to a negative value and the end is pinned to the start:
    nothing is masked, where the reference definition masks to the end of
    the input.  The same happens to [start - 1] at the least start. *)
Theorem mask_string_wraps_at_int64_extremes :
  mask_string (Str.of_string "abc") 2 Int.int64_max (Str.of_string "*")
    = Ok (Str.of_string "abc")
  ∧ mask_string_spec (Str.of_string "abc") 2 Int.int64_max "*"%byte
    = Str.of_string "a**"
  ∧ mask_string (Str.of_string "abc") Int.int64_min 1 (Str.of_string "*")
    = Ok (Str.of_string "abc")
  ∧ mask_string_spec (Str.of_string "abc") Int.int64_min 1 "*"%byte
    = Str.of_string "*bc".
Proof. vm_compute. repeat split. Qed.

(** ** [mask_string]: number of fill bytes *)

Lemma count_byte_app (c : byte) (s1 s2 : bytes) :
  count_byte c (s1 ++ s2) = (count_byte c s1 + count_byte c s2)%nat.
Proof. unfold count_byte. by rewrite filter_app, length_app. Qed.

Lemma count_byte_replicate (c : byte) (k : nat) :
  count_byte c (replicate k c) = k.
Proof.
  unfold count_byte. induction k as [|k IH]; [done|].
  simpl. rewrite filter_cons_True by done. simpl. by rewrite IH.
Qed.

Lemma count_byte_le_length (c : byte) (s : bytes) :
  (count_byte c s ≤ length s)%nat.
Proof. apply length_filter. Qed.

(** Widening the masked region by [b2 - b1] bytes adds that many fill bytes
    and removes at most as many from the tail. *)
Lemma count_byte_masked_mono (S : bytes) (a b1 b2 : nat) (c : byte) :
  (a ≤ b1 ≤ b2)%nat → (b2 ≤ length S)%nat →
  (count_byte c (take a S ++ replicate (b1 - a) c ++ drop b1 S)
   ≤ count_byte c (take a S ++ replicate (b2 - a) c ++ drop b2 S))%nat.
Proof.
  intros Hab HbL. rewrite !count_byte_app, !count_byte_replicate.
  assert (Htail : (count_byte c (drop b1 S)
                   ≤ (b2 - b1) + count_byte c (drop b2 S))%nat).
  { rewrite <-(take_drop (b2 - b1) (drop b1 S)), count_byte_app, drop_drop.
    replace (b1 + (b2 - b1))%nat with b2 by lia.
    pose proof (count_byte_le_length c (take (b2 - b1) (drop b1 S))) as Hle.
    rewrite length_take in Hle. lia. }
  lia.
Qed.

(** Monotonicity in the length holds while [start + length] stays in the
    [int64_t] range. *)
Lemma mask_string_count_mono (S : bytes) (s n1 n2 : Z) (c : byte) (rest out1 out2 : bytes) :
  Str.representable S →
  Int.int64_min ≤ n1 → n1 ≤ n2 →
  mask_start (Str.size S) s + n2 ≤ Int.int64_max →
  mask_string S s n1 (c :: rest) = Ok out1 →
  mask_string S s n2 (c :: rest) = Ok out2 →
  (count_byte c out1 ≤ count_byte c out2)%nat.
Proof.
  intros HS Hn1 Hn Hsum. unfold mask_string.
  rewrite !(MaskStringLambda_eval _ c rest) by done. cbv zeta.
  intros [= <-] [= <-].
  pose proof (size_nonneg S) as HL.
  destruct (mask_bounds (Str.size S) s n1 HL) as [Hab1 HbL1].
  destruct (mask_bounds (Str.size S) s n2 HL) as [Hab2 HbL2].
  set (a := mask_start (Str.size S) s) in *.
  assert (Hmono : mask_end (Str.size S) a n1 ≤ mask_end (Str.size S) a n2).
  { unfold mask_end.
    rewrite (to_int64_id (a + n1)), (to_int64_id (a + n2))
      by (unfold Int.is_int64, Int.int64_min, Int.int64_max in *; lia).
    lia. }
  rewrite !Z2Nat.inj_sub by lia.
  apply count_byte_masked_mono; unfold Str.size in *; lia.
Qed.

(** C9. With start 2 on a three-byte input, length 1 masks one byte, while
    at the greatest length [start + length] wraps and no byte is masked:
    the larger length yields fewer fill bytes. *)
Theorem mask_string_count_drops_on_overflow :
  mask_string (Str.of_string "abc") 2 1 (Str.of_string "*")
    = Ok (Str.of_string "a*c")
  ∧ mask_string (Str.of_string "abc") 2 Int.int64_max (Str.of_string "*")
    = Ok (Str.of_string "abc")
  ∧ count_byte "*"%byte (Str.of_string "a*c") = 1%nat
  ∧ count_byte "*"%byte (Str.of_string "abc") = 0%nat.
Proof. vm_compute. repeat split. Qed.

(** ** The row loop *)


Lemma for_rows_Ok {B} (f : nat → res B) (first count : nat) (out : list B) :
  for_rows f first count = Ok out →
  length out = count
  ∧ ∀ k r, out !! k = Some r → f (first + k)%nat = Ok r.
Proof.
  revert first out. induction count as [|count IH]; intros first out; simpl.
  - intros [= <-]. split; [done|]. intros k r Hk. by rewrite lookup_nil in Hk.
  - destruct (f first) as [r0|e] eqn:Hf; simpl; [|done].
    destruct (for_rows f (S first) count) as [rs|e] eqn:Hrs; simpl; [|done].
    intros [= <-]. destruct (IH _ _ Hrs) as [Hlen Hrow]. split.
    + simpl. by rewrite Hlen.
    + intros [|k] r Hk; simpl in Hk.
      * injection Hk as <-. by rewrite Nat.add_0_r.
      * rewrite <-(Hrow k r Hk). f_equal. lia.
Qed.

Lemma for_rows_total {B} (f : nat → res B) (first count : nat) :
  (∀ i, (first ≤ i < first + count)%nat → ∃ r, f i = Ok r) →
  ∃ out, for_rows f first count = Ok out.
Proof.
  revert first. induction count as [|count IH]; intros first Hf; simpl.
  - by eexists.
  - destruct (Hf first) as [r Hr]; [lia|]. rewrite Hr. simpl.
    destruct (IH (S first)) as [rs Hrs].
    { intros i Hi. apply Hf. lia. }
    rewrite Hrs. simpl. by eexists.
Qed.

Lemma for_rows_first_fault {B} (f : nat → res B) (first count : nat) (e : fault) :
  f first = Fault e → for_rows f first (S count) = Fault e.
Proof. intros Hf. simpl. by rewrite Hf. Qed.

Lemma GetValue_Ok {A} (v : list A) (i : nat) (a : A) :
  GetValue v i = Ok a ↔ v !! i = Some a.
Proof. unfold GetValue. destruct (v !! i); split; congruence. Qed.

Lemma GetValue_lt {A} (v : list A) (i : nat) :
  (i < length v)%nat → ∃ a, v !! i = Some a ∧ GetValue v i = Ok a.
Proof.
  intros Hi. destruct (lookup_lt_is_Some_2 v i Hi) as [a Ha].
  exists a. split; [done|]. by apply GetValue_Ok.
Qed.

(** ** [mask_string]: the fill byte *)


(** Of that value it uses the first byte only. *)
Lemma MaskStringLambda_first_byte (mv : list bytes) (c : byte) (rest S : bytes) (s n : Z) :
  mv !! 0%nat = Some (c :: rest) →
  MaskStringLambda mv S s n = mask_string S s n [c].
Proof.
  intros Hrow. unfold mask_string, MaskStringLambda, GetValue. by rewrite Hrow.
Qed.




(** The read [GetData()[0]] of an empty fill value is at index 0 of a
    value of 0 bytes. *)
Lemma MaskStringLambda_empty_fill (mv : list bytes) (S : bytes) (s n : Z) :
  mv !! 0%nat = Some [] →
  MaskStringLambda mv S s n = Fault (OutOfBounds 0 0).
Proof. intros Hrow. unfold MaskStringLambda, GetValue. by rewrite Hrow. Qed.

Lemma chunk_wf_row (args : MaskStringArgs) (i : nat) :
  chunk_wf args → (i < mask_args_size args)%nat →
  ∃ S s n,
    GetValue (name_vector args) i = Ok S
    ∧ GetValue (start_vector args) i = Ok s
    ∧ GetValue (length_vector args) i = Ok n
    ∧ Str.representable S.
Proof.
  intros (Hn & Hs & Hl & _ & Hrep) Hi.
  destruct (GetValue_lt (name_vector args) i) as (S & HS & HS'); [lia|].
  destruct (GetValue_lt (start_vector args) i) as (s & _ & Hs'); [lia|].
  destruct (GetValue_lt (length_vector args) i) as (n & _ & Hn'); [lia|].
  exists S, s, n. repeat split; try done.
  by eapply (Forall_lookup_1 _ _ i S Hrep).
Qed.

(** C5. On a batch with at least one row, an empty fill value at row 0
    makes [mask_string] read index 0 of a value of length 0, one byte past
    its end; with a non-empty fill value every row is computed without any
    access out of bounds. *)
Theorem mask_string_fill_read_bounds (args : MaskStringArgs) (fill : bytes) :
  chunk_wf args →
  mask_vector args !! 0%nat = Some fill →
  (fill = [] → (0 < mask_args_size args)%nat →
     MaskStringScalarFun args = Fault (OutOfBounds 0 0))
  ∧ (fill ≠ [] →
     ∃ out, MaskStringScalarFun args = Ok out
            ∧ length out = mask_args_size args).
Proof.
  intros Hwf Hfill. unfold MaskStringScalarFun, TernaryExecutor.Execute. split.
  - intros -> Hrows.
    destruct (mask_args_size args) as [|count] eqn:Hsize; [lia|].
    apply for_rows_first_fault.
    destruct (chunk_wf_row args 0 Hwf) as (S & s & n & -> & -> & -> & _); [lia|].
    simpl. by apply MaskStringLambda_empty_fill.
  - intros Hne. destruct fill as [|c rest]; [done|].
    match goal with |- ∃ out, for_rows ?f 0 ?k = _ ∧ _ =>
      destruct (for_rows_total f 0 k) as [out Hout] end.
    { intros i Hi.
      destruct (chunk_wf_row args i Hwf) as (S & s & n & -> & -> & -> & HS); [lia|].
      simpl. rewrite (MaskStringLambda_eval _ c rest) by done. by eexists. }
    exists out. split; [done|]. by apply for_rows_Ok in Hout as [? _].
Qed.

Lemma mask_string_fill_read_bounds_witness :
  chunk_wf example_chunk
  ∧ mask_vector example_chunk !! 0%nat = Some (Str.of_string "*")
  ∧ ∃ out, MaskStringScalarFun example_chunk = Ok out
           ∧ length out = mask_args_size example_chunk.
Proof.
  assert (Hwf : chunk_wf example_chunk).
  { unfold chunk_wf. repeat split; try (simpl; lia).
    repeat constructor; vm_compute; discriminate. }
  split; [exact Hwf|]. split; [reflexivity|].
  apply (mask_string_fill_read_bounds example_chunk (Str.of_string "*") Hwf);
    [reflexivity | discriminate].
Defined.

Example mask_string_empty_fill_faults :
  MaskStringScalarFun (with_mask_vector example_chunk [[]; Str.of_string "#"; []])
  = Fault (OutOfBounds 0 0).
Proof. vm_compute. reflexivity. Qed.

(** ** [mask_email] *)

Lemma find_app_notin (c : byte) (l1 l2 : bytes) :
  c ∉ l1 →
  Str.find c (l1 ++ l2) = (λ k, length l1 + k)%nat <$> Str.find c l2.
Proof.
  induction l1 as [|b l1 IH]; intros Hnotin; simpl.
  - by destruct (Str.find c l2).
  - apply not_elem_of_cons in Hnotin as [Hne Hnotin].
    rewrite decide_False by done. rewrite IH by done.
    by destruct (Str.find c l2).
Qed.

Lemma find_None (c : byte) (S : bytes) : Str.find c S = None ↔ c ∉ S.
Proof.
  induction S as [|b S IH]; simpl.
  - split; [intros _; apply not_elem_of_nil | done].
  - rewrite not_elem_of_cons. destruct (decide (b = c)) as [->|Hne].
    + split; [done | intros [? _]; done].
    + destruct (Str.find c S); simpl; split; try done.
      * intros [_ Hn]. by apply IH in Hn.
      * intros _. split; [by intros ->|]. by apply IH.
Qed.

(** The input splits at the position [find] reports. *)
Lemma find_Some_split (c : byte) (S : bytes) (p : nat) :
  Str.find c S = Some p →
  ∃ pre post, S = pre ++ c :: post ∧ length pre = p ∧ c ∉ pre.
Proof.
  revert p. induction S as [|b S IH]; intros p; simpl; [done|].
  destruct (decide (b = c)) as [->|Hne].
  - intros [= <-]. exists [], S. repeat split. apply not_elem_of_nil.
  - destruct (Str.find c S) as [q|] eqn:Hq; simpl; [|done].
    intros [= <-]. destruct (IH q eq_refl) as (pre & post & -> & <- & Hnotin).
    exists (b :: pre), post. repeat split.
    apply not_elem_of_cons. split; [by intros ->|done].
Qed.

Lemma find_split (c : byte) (pre post : bytes) :
  c ∉ pre → Str.find c (pre ++ c :: post) = Some (length pre).
Proof.
  intros Hnotin. rewrite find_app_notin by done. simpl.
  rewrite decide_True by done. simpl. f_equal. lia.
Qed.

Lemma first_at_sign_find (S : bytes) (p : nat) :
  first_at_sign S p ↔ Str.find at_sign S = Some p.
Proof.
  split.
  - intros [Hp Hfirst].
    destruct (Str.find at_sign S) as [q|] eqn:Hq.
    + destruct (find_Some_split _ _ _ Hq) as (pre & post & -> & <- & Hnotin).
      f_equal. destruct (Nat.lt_trichotomy (length pre) p) as [Hlt|[Heq|Hgt]].
      * exfalso. apply (Hfirst (length pre) Hlt).
        by rewrite list_lookup_middle.
      * done.
      * exfalso. apply Hnotin. rewrite lookup_app_l in Hp by done.
        by eapply list_elem_of_lookup_2.
    + exfalso. apply find_None in Hq. apply Hq. by eapply list_elem_of_lookup_2.
  - intros Hq. destruct (find_Some_split _ _ _ Hq) as (pre & post & -> & <- & Hnotin).
    split.
    + by rewrite list_lookup_middle.
    + intros k Hk Hat. apply Hnotin. rewrite lookup_app_l in Hat by done.
      by eapply list_elem_of_lookup_2.
Qed.

(** The masking branch on an input split at its first at sign. *)
Lemma mask_email_split (b : byte) (pre post : bytes) :
  Str.representable (b :: pre ++ at_sign :: post) →
  at_sign ∉ (b :: pre) →
  mask_email (b :: pre ++ at_sign :: post)
  = Ok (b :: replicate (length pre) asterisk ++ at_sign :: post).
Proof.
  intros HS Hnotin. unfold mask_email, MaskEmailLambda. cbv zeta.
  pose proof (find_split at_sign (b :: pre) post Hnotin) as Hfind.
  change ((b :: pre) ++ at_sign :: post) with (b :: pre ++ at_sign :: post) in Hfind.
  rewrite Hfind, decide_False by done.
  pose proof (size_nonneg (b :: pre ++ at_sign :: post)) as HL.
  assert (Hlen : Str.size (b :: pre ++ at_sign :: post)
                 = Z.of_nat (length pre) + Z.of_nat (length post) + 2).
  { unfold Str.size. simpl. rewrite length_app. simpl. lia. }
  rewrite substr_prefix by lia.
  rewrite substr_suffix by (auto using representable_npos; simpl; lia).
  cbn [mbind res_bind]. f_equal.
  rewrite to_size_t_id.
  2:{ unfold Str.representable, Int.int64_max, Int.modulus in *. simpl. lia. }
  unfold Str.fill. rewrite Nat2Z.id.
  replace (Z.to_nat (Z.of_nat (length (b :: pre)) - 1)) with (length pre)
    by (simpl; lia).
  change (Z.to_nat 1) with 1%nat. simpl. f_equal. f_equal.
  by rewrite drop_app_length.
Qed.

Lemma mask_email_unchanged (S : bytes) :
  Str.find at_sign S = None ∨ Str.find at_sign S = Some 0%nat →
  mask_email S = Ok S.
Proof. unfold mask_email, MaskEmailLambda. by intros [-> | ->]. Qed.

Lemma mask_email_masked (S : bytes) (p : nat) :
  Str.representable S → Str.find at_sign S = Some p → (0 < p)%nat →
  ∃ b pre post,
    S = b :: pre ++ at_sign :: post ∧ p = Datatypes.S (length pre) ∧ (at_sign ∉ b :: pre)
    ∧ mask_email S = Ok (b :: replicate (length pre) asterisk ++ at_sign :: post).
Proof.
  intros HS Hfind Hp.
  destruct (find_Some_split _ _ _ Hfind) as (pre & post & -> & <- & Hnotin).
  destruct pre as [|b pre]; [simpl in Hp; lia|].
  exists b, pre, post. repeat split; try done. by apply mask_email_split.
Qed.

(** C2. [mask_email] returns its input unchanged if it holds no at sign or
    if its first at sign is at position 0; otherwise, with [p] the position
    of the first at sign, it returns the first byte, [p - 1] asterisks and
    the input from position [p] on. *)
Theorem mask_email_cases (S : bytes) :
  Str.representable S →
  (at_sign ∉ S → mask_email S = Ok S)
  ∧ (first_at_sign S 0 → mask_email S = Ok S)
  ∧ (∀ p, first_at_sign S p → (0 < p)%nat →
       ∃ b, S !! 0%nat = Some b
            ∧ mask_email S = Ok ([b] ++ replicate (p - 1) asterisk ++ drop p S)).
Proof.
  intros HS. split; [|split].
  - intros Hnotin. apply mask_email_unchanged. left. by apply find_None.
  - intros Hfirst. apply mask_email_unchanged. right. by apply first_at_sign_find.
  - intros p Hfirst Hp. apply first_at_sign_find in Hfirst.
    destruct (mask_email_masked S p HS Hfirst Hp)
      as (b & pre & post & -> & -> & _ & ->).
    exists b. split; [done|]. simpl. rewrite Nat.sub_0_r.
    by rewrite drop_app_length.
Qed.

Lemma mask_email_cases_witness :
  Str.representable (Str.of_string "johndoe@example.com")
  ∧ first_at_sign (Str.of_string "johndoe@example.com") 7
  ∧ ∃ b, Str.of_string "johndoe@example.com" !! 0%nat = Some b
         ∧ mask_email (Str.of_string "johndoe@example.com")
           = Ok ([b] ++ replicate (7 - 1) asterisk
                     ++ drop 7 (Str.of_string "johndoe@example.com")).
Proof.
  assert (Hrep : Str.representable (Str.of_string "johndoe@example.com"))
    by (vm_compute; discriminate).
  assert (Hfirst : first_at_sign (Str.of_string "johndoe@example.com") 7)
    by (apply (proj2 (first_at_sign_find _ _)); vm_compute; reflexivity).
  split; [exact Hrep|]. split; [exact Hfirst|].
  destruct (mask_email_cases (Str.of_string "johndoe@example.com") Hrep)
    as (_ & _ & Hmask).
  apply (Hmask 7%nat Hfirst). lia.
Defined.

Lemma list_find_at_sign (S : bytes) :
  list_find (λ b, b = at_sign) S = (λ p, (p, at_sign)) <$> Str.find at_sign S.
Proof.
  induction S as [|b S IH]; [done|]. cbn [list_find Str.find].
  destruct (decide (b = at_sign)) as [->|Hne]; [done|].
  rewrite IH. by destruct (Str.find at_sign S).
Qed.

(** The lambda and the reference definition of §4.3 agree. *)
Lemma mask_email_refines_spec (S : bytes) :
  Str.representable S → mask_email S = Ok (mask_email_spec S).
Proof.
  intros HS. unfold mask_email_spec. rewrite list_find_at_sign.
  destruct (Str.find at_sign S) as [[|p]|] eqn:Hfind; simpl.
  - apply mask_email_unchanged. by right.
  - destruct (mask_email_masked S (Datatypes.S p) HS Hfind)
      as (b & pre & post & -> & [= ->] & _ & ->); [lia|].
    simpl. rewrite Nat.sub_0_r. by rewrite drop_app_length.
  - apply mask_email_unchanged. by left.
Qed.

(** A second application finds the same first at sign and writes the same
    bytes. *)
Lemma mask_email_idempotent (S out : bytes) :
  Str.representable S → mask_email S = Ok out → mask_email out = Ok out.
Proof.
  intros HS Hout.
  destruct (Str.find at_sign S) as [[|p]|] eqn:Hfind.
  - rewrite mask_email_unchanged in Hout by (by right).
    injection Hout as <-. apply mask_email_unchanged. by right.
  - destruct (mask_email_masked S (Datatypes.S p) HS Hfind)
      as (b & pre & post & -> & _ & Hnotin & Hmask); [lia|].
    rewrite Hmask in Hout. injection Hout as <-.
    rewrite <-(length_replicate (length pre) asterisk) at 2.
    apply mask_email_split.
    + unfold Str.representable, Str.size in *. clear Hfind Hmask. simpl in *.
      rewrite length_app, length_replicate. by rewrite length_app in HS.
    + apply not_elem_of_cons in Hnotin as [Hb _].
      apply not_elem_of_cons. split; [done|].
      intros Hin. by apply elem_of_replicate in Hin as [? _].
  - rewrite mask_email_unchanged in Hout by (by left).
    injection Hout as <-. apply mask_email_unchanged. by left.
Qed.

(** C8. For every string with an at sign at a position [p > 0], masking the
    masked string again returns the masked string. *)
Theorem mask_email_twice (S : bytes) (p : nat) :
  Str.representable S →
  S !! p = Some at_sign → (0 < p)%nat →
  mask_email S ≫= mask_email = mask_email S.
Proof.
  intros HS _ _. destruct (mask_email S) as [out|e] eqn:Hout; [|done].
  simpl. by apply mask_email_idempotent with S.
Qed.

Lemma mask_email_twice_witness :
  Str.representable (Str.of_string "johndoe@example.com")
  ∧ Str.of_string "johndoe@example.com" !! 7%nat = Some at_sign
  ∧ mask_email (Str.of_string "johndoe@example.com") ≫= mask_email
    = mask_email (Str.of_string "johndoe@example.com").
Proof.
  split; [vm_compute; discriminate|]. split; [reflexivity|].
  apply (mask_email_twice (Str.of_string "johndoe@example.com") 7).
  - vm_compute; discriminate.
  - reflexivity.
  - lia.
Defined.

(** ** [scramble_string]: the output is a rearrangement of the input *)

#[global] Instance byte_le_trans : Transitive byte_le.
Proof. unfold byte_le. intros a b c. lia. Qed.

#[global] Instance byte_le_total : Total byte_le.
Proof. unfold byte_le. intros a b. lia. Qed.

#[global] Instance byte_le_antisymm : AntiSymm (=) byte_le.
Proof.
  unfold byte_le. intros a b Hab Hba.
  assert (Heq : Byte.to_N a = Byte.to_N b) by lia.
  pose proof (Byte.of_to_N a) as Ha. rewrite Heq, Byte.of_to_N in Ha. congruence.
Qed.

(** Equal multisets have equal sorted forms. *)
Lemma sorted_bytes_Permutation (s1 s2 : bytes) :
  s1 ≡ₚ s2 → sorted_bytes s1 = sorted_bytes s2.
Proof.
  intros Hperm. unfold sorted_bytes.
  apply (Sorted_unique byte_le); try apply Sorted_merge_sort; try apply _.
  by rewrite !merge_sort_Permutation.
Qed.

Lemma swap_Ok {A} (s : list A) (i j : nat) :
  (i < length s)%nat → (j < length s)%nat →
  ∃ x y, s !! i = Some x ∧ s !! j = Some y
         ∧ swap s i j = Ok (<[i := y]> (<[j := x]> s)).
Proof.
  intros Hi Hj.
  destruct (lookup_lt_is_Some_2 s i Hi) as [x Hx].
  destruct (lookup_lt_is_Some_2 s j Hj) as [y Hy].
  exists x, y. unfold swap. by rewrite Hx, Hy.
Qed.

Lemma swap_Permutation {A} (s s' : list A) (i j : nat) :
  swap s i j = Ok s' → s' ≡ₚ s.
Proof.
  unfold swap. destruct (s !! i) as [x|] eqn:Hx; [|done].
  destruct (s !! j) as [y|] eqn:Hy; [|done]. intros [= <-].
  by apply Permutation_insert_swap.
Qed.

(** With draws in the requested range no access of the loop is out of
    bounds, and every pass swaps two bytes of the string. *)
Lemma fisher_yates_loop_Permutation {A} `{UniformRandomBitGenerator G}
    (i : nat) (s : list A) (g : G) :
  (i < length s)%nat →
  ∃ s' g', fisher_yates_loop i s g = Ok (s', g') ∧ s' ≡ₚ s.
Proof.
  revert s g. induction i as [|i IH]; intros s g Hi; simpl.
  - by exists s, g.
  - pose proof (uniform_int_range 0 (S i) g) as Hj.
    destruct (uniform_int 0 (S i) g) as [j g1]. simpl in Hj.
    destruct (swap_Ok s (S i) j) as (x & y & _ & _ & Hswap); [lia..|].
    rewrite Hswap. simpl.
    destruct (IH (<[S i:=y]> (<[j:=x]> s)) g1) as (s' & g' & Hloop & Hperm).
    { rewrite !length_insert. lia. }
    exists s', g'. split; [done|].
    rewrite Hperm. by eapply swap_Permutation.
Qed.

(** C3. For every input, every engine and every engine state,
    [scramble_string] returns a string of the same byte length whose sorted
    bytes are the sorted bytes of the input; the empty input is returned as
    the empty string. *)
Theorem scramble_string_permutes `{UniformRandomBitGenerator G}
    (rd : N) (S : bytes) (ts : thread_state G) :
  (∃ out ts', ScrambleStringLambda rd S ts = Ok (out, ts')
              ∧ length out = length S
              ∧ sorted_bytes out = sorted_bytes S)
  ∧ ScrambleStringLambda rd [] ts = Ok ([], ts).
Proof.
  split; [|done]. destruct S as [|b S]; simpl.
  - by exists [], ts.
  - rewrite Nat.sub_0_r.
    destruct (fisher_yates_loop_Permutation (length S) (b :: S)
                (match ts with Some g => g | None => seed_engine rd end))
      as (s' & g' & -> & Hperm); [simpl; lia|].
    simpl. exists s', (Some g'). split; [done|]. split.
    + by rewrite Hperm.
    + by apply sorted_bytes_Permutation.
Qed.

Example scramble_string_S10 :
  ∃ out, ScrambleStringLambda (G:=N) 42%N (Str.of_string "password") None
         = Ok (out, Some 1350734175%N)
         ∧ out = Str.of_string "dasspowr"
         ∧ sorted_bytes out = Str.of_string "adoprssw".
Proof. eexists. vm_compute. repeat split. Qed.

(** ** [scramble_string]: the shuffle is unbiased *)

(** *** The loop leaves the bytes behind its index alone *)

Lemma swap_app_l {A} (s t : list A) (i j : nat) :
  (i < length s)%nat → (j < length s)%nat →
  swap (s ++ t) i j = (.++ t) <$> swap s i j.
Proof.
  intros Hi Hj. destruct (swap_Ok s i j Hi Hj) as (x & y & Hx & Hy & ->).
  unfold swap. rewrite !lookup_app_l, Hx, Hy by done. simpl. f_equal.
  rewrite insert_app_l by done.
  by rewrite insert_app_l by (by rewrite length_insert).
Qed.

Lemma fisher_yates_loop_app {A} `{UniformRandomBitGenerator G}
    (i : nat) (s t : list A) (g : G) :
  (i < length s)%nat →
  fisher_yates_loop i (s ++ t) g
  = (λ r : list A * G, (r.1 ++ t, r.2)) <$> fisher_yates_loop i s g.
Proof.
  revert s g. induction i as [|i IH]; intros s g Hi; simpl; [done|].
  pose proof (uniform_int_range 0 (S i) g) as Hj.
  destruct (uniform_int 0 (S i) g) as [j g1]. simpl in Hj.
  rewrite swap_app_l by lia.
  destruct (swap_Ok s (S i) j) as (x & y & _ & _ & ->); [lia..|]. simpl.
  apply IH. rewrite !length_insert. lia.
Qed.

(** *** The loop moves positions, whatever is stored in them *)

Lemma swap_fmap {A B} (f : A → B) (s : list A) (i j : nat) :
  swap (f <$> s) i j = (λ s' : list A, f <$> s') <$> swap s i j.
Proof.
  unfold swap. rewrite !list_lookup_fmap, length_fmap.
  destruct (s !! i) as [x|], (s !! j) as [y|]; simpl; try done.
  by rewrite !list_fmap_insert.
Qed.

Lemma fisher_yates_loop_fmap {A B} `{UniformRandomBitGenerator G}
    (f : A → B) (i : nat) (s : list A) (g : G) :
  fisher_yates_loop i (f <$> s) g
  = (λ r : list A * G, (f <$> r.1, r.2)) <$> fisher_yates_loop i s g.
Proof.
  revert s g. induction i as [|i IH]; intros s g; simpl; [done|].
  destruct (uniform_int 0 (S i) g) as [j g1].
  rewrite swap_fmap. destruct (swap s (S i) j) as [s1|e]; simpl; [|done].
  apply IH.
Qed.

Lemma fmap_lookup_total_seq (S : bytes) :
  (λ k, S !!! k) <$> seq 0 (length S) = S.
Proof.
  apply list_eq. intros i. rewrite list_lookup_fmap.
  destruct (decide (i < length S)%nat) as [Hi|Hi].
  - rewrite lookup_seq_lt by done. simpl.
    by rewrite list_lookup_lookup_total_lt.
  - rewrite lookup_seq_ge, lookup_ge_None_2 by lia. done.
Qed.

(** *** One pass of the loop on a script *)

Lemma scripted_draw (i j : nat) (ds : scripted) :
  (j ≤ i)%nat → uniform_int 0 i (j :: ds) = (j, ds).
Proof. intros Hj. simpl. f_equal. lia. Qed.

(** The pass for index [i] on a string of [i + 1] bytes puts the byte at
    the drawn position last. *)
Lemma swap_last {A} (s : list A) (i j : nat) (x y : A) :
  length s = S i → s !! j = Some x → s !! i = Some y →
  swap s i j = Ok (take i (<[j := y]> s) ++ [x]).
Proof.
  intros Hlen Hx Hy. unfold swap. rewrite Hy, Hx. f_equal.
  set (s1 := <[j := y]> s).
  assert (Hlen1 : length s1 = S i) by (unfold s1; by rewrite length_insert).
  rewrite <-(take_drop i (<[i := x]> s1)).
  rewrite take_insert_ge by done. f_equal.
  apply list_eq. intros [|k].
  - rewrite lookup_drop, Nat.add_0_r. simpl.
    apply list_lookup_insert_eq. lia.
  - rewrite lookup_drop. simpl. apply lookup_ge_None_2.
    rewrite length_insert. lia.
Qed.

Lemma run_script_last {A} (i j : nat) (s : list A) (ds : scripted) (x y : A) :
  length s = S (S i) → s !! j = Some x → s !! S i = Some y → (j ≤ S i)%nat →
  run_script (S i) s (j :: ds)
  = (.++ [x]) <$> run_script i (take (S i) (<[j := y]> s)) ds.
Proof.
  intros Hlen Hx Hy Hj. unfold run_script.
  cbn [fisher_yates_loop]. rewrite scripted_draw by done.
  rewrite (swap_last s (S i) j x y) by done. cbn [mbind res_bind].
  rewrite fisher_yates_loop_app.
  2:{ rewrite length_take, length_insert. lia. }
  by destruct (fisher_yates_loop i (take (S i) (<[j:=y]> s)) ds) as [[??]|].
Qed.

(** *** Every arrangement comes from exactly one script *)

Lemma snoc_of_length {A} (p : list A) (n : nat) :
  length p = S n → ∃ p' x, p = p' ++ [x] ∧ length p' = n.
Proof.
  intros Hlen. destruct (lookup_lt_is_Some_2 p n) as [x Hx]; [lia|].
  exists (take n p), x. split; [|rewrite length_take; lia].
  rewrite <-(take_drop n p) at 1. f_equal.
  apply list_eq. intros [|k]; rewrite lookup_drop; simpl.
  - by rewrite Nat.add_0_r.
  - apply lookup_ge_None_2. lia.
Qed.

Lemma run_script_bijective {A} (i : nat) (s p : list A) :
  length s = S i → NoDup s → p ≡ₚ s →
  ∃ ds, valid_draws i ds
        ∧ run_script i s ds = Ok p
        ∧ ∀ ds', valid_draws i ds' → run_script i s ds' = Ok p → ds' = ds.
Proof.
  revert s p. induction i as [|i IH]; intros s p Hlen Hnodup Hperm.
  - destruct s as [|x [|??]]; try done.
    apply Permutation_singleton_r in Hperm as ->.
    exists []. split; [done|]. split; [done|].
    by intros [|??] Hvalid _.
  - destruct (snoc_of_length p (S i)) as (p' & x & -> & Hlenp).
    { by rewrite Hperm. }
    assert (Hx : x ∈ s).
    { rewrite <-Hperm. apply elem_of_app. right. apply list_elem_of_here. }
    apply list_elem_of_lookup_1 in Hx as [j Hj].
    pose proof (lookup_lt_Some _ _ _ Hj) as Hjlt.
    destruct (lookup_lt_is_Some_2 s (S i)) as [y Hy]; [lia|].
    set (s1 := take (S i) (<[j := y]> s)).
    assert (Hswap : swap s (S i) j = Ok (s1 ++ [x])) by by apply swap_last.
    apply swap_Permutation in Hswap.
    assert (Hnodup1 : NoDup s1).
    { rewrite <-Hswap in Hnodup. by apply NoDup_app in Hnodup as [? _]. }
    assert (Hperm1 : p' ≡ₚ s1).
    { apply (inj (.++ [x])). by rewrite Hperm, Hswap. }
    assert (Hlen1 : length s1 = S i).
    { unfold s1. rewrite length_take, length_insert. lia. }
    destruct (IH s1 p' Hlen1 Hnodup1 Hperm1) as (ds & Hvalid & Hrun & Huniq).
    exists (j :: ds). split; [split; [lia|done]|]. split.
    + rewrite (run_script_last i j s ds x y) by (done || lia).
      fold s1. by rewrite Hrun.
    + intros [|j2 ds2]; [done|]. intros [Hj2 Hvalid2] Hrun2.
      destruct (lookup_lt_is_Some_2 s j2) as [x2 Hx2]; [lia|].
      rewrite (run_script_last i j2 s ds2 x2 y) in Hrun2 by done.
      destruct (run_script i (take (S i) (<[j2:=y]> s)) ds2) as [q|e] eqn:Hq;
        [|done].
      injection Hrun2 as Hsnoc. apply app_inj_tail in Hsnoc as [-> ->].
      assert (j2 = j) as -> by apply (NoDup_lookup s j2 j x Hnodup Hx2 Hj).
      f_equal. by apply Huniq.
Qed.

(** *** The scripts of a loop *)

Lemma elem_of_all_draws (i : nat) (ds : list nat) :
  ds ∈ all_draws i ↔ valid_draws i ds.
Proof.
  revert ds. induction i as [|i IH]; intros ds.
  - simpl. rewrite list_elem_of_singleton. by destruct ds.
  - cbn [all_draws]. rewrite list_elem_of_bind. split.
    + intros (j & Hds & Hj). apply list_elem_of_fmap in Hds as (ds' & -> & Hds').
      apply elem_of_seq in Hj. split; [lia|]. by apply IH.
    + destruct ds as [|j ds']; [done|]. intros [Hj Hvalid].
      exists j. split.
      * apply list_elem_of_fmap. exists ds'. split; [done|]. by apply IH.
      * apply elem_of_seq. lia.
Qed.

Lemma NoDup_all_draws (i : nat) : NoDup (all_draws i).
Proof.
  induction i as [|i IH]; [apply NoDup_singleton|].
  cbn [all_draws]. apply NoDup_bind.
  - intros j1 j2 ds _ _ (? & -> & _)%list_elem_of_fmap (? & [= <- _] & _)%list_elem_of_fmap.
    done.
  - intros j _. apply NoDup_fmap_2; [|done]. by intros ?? [= ->].
  - apply NoDup_seq.
Qed.

Lemma length_bind_const {A B} (f : A → list B) (l : list A) (m : nat) :
  (∀ x, length (f x) = m) → length (l ≫= f) = (length l * m)%nat.
Proof.
  intros Hf. induction l as [|x l IH]; [done|].
  rewrite bind_cons, length_app, Hf, IH. simpl. lia.
Qed.

Lemma length_all_draws (i : nat) : length (all_draws i) = fact (S i).
Proof.
  induction i as [|i IH]; [done|].
  cbn [all_draws]. rewrite (length_bind_const _ _ (fact (S i))).
  - rewrite length_seq. change (fact (S (S i))) with (S (S i) * fact (S i))%nat.
    done.
  - intros j. by rewrite length_fmap.
Qed.

Lemma filter_unique_length {A} (P : A → Prop) `{∀ x, Decision (P x)}
    (l : list A) (x : A) :
  NoDup l → x ∈ l → P x → (∀ y, y ∈ l → P y → y = x) →
  length (filter P l) = 1%nat.
Proof.
  intros Hnodup Hx HPx Huniq.
  assert (Hperm : filter P l ≡ₚ [x]).
  { apply NoDup_Permutation.
    - by apply NoDup_filter.
    - apply NoDup_singleton.
    - intros y. rewrite list_elem_of_filter, list_elem_of_singleton. split.
      + intros [HPy Hy]. by apply Huniq.
      + by intros ->. }
  by rewrite Hperm.
Qed.

(** *** The lambda on a script *)

(** A script with one draw per pass, each in the range of its pass, is
    handed out draw by draw and used up when the loop ends. *)
Lemma fisher_yates_loop_consumes {A} (i : nat) (s : list A) (ds : scripted) :
  valid_draws i ds → (i < length s)%nat →
  ∃ s', fisher_yates_loop i s ds = Ok (s', []).
Proof.
  revert s ds. induction i as [|i IH]; intros s [|j ds]; try done.
  - intros _ _. by exists s.
  - intros [Hj Hvalid] Hi. cbn [fisher_yates_loop].
    rewrite scripted_draw by done.
    destruct (swap_Ok s (S i) j) as (x & y & _ & _ & ->); [lia..|].
    cbn [mbind res_bind]. apply IH; [done|]. rewrite !length_insert. lia.
Qed.

Lemma shuffle_with_positions (n : nat) (ds : scripted) :
  valid_draws n ds →
  ∃ π, fisher_yates_loop n (seq 0 (S n)) ds = Ok (π, [])
       ∧ shuffle_with ds (seq 0 (S n)) = Ok π
       ∧ π ≡ₚ seq 0 (S n).
Proof.
  intros Hvalid.
  destruct (fisher_yates_loop_consumes n (seq 0 (S n)) ds Hvalid) as [π Hloop].
  { rewrite length_seq. lia. }
  exists π. split; [done|]. split.
  - unfold shuffle_with, run_script. rewrite length_seq, Nat.sub_1_r. simpl pred.
    by rewrite Hloop.
  - destruct (fisher_yates_loop_Permutation n (seq 0 (S n)) ds)
      as (s' & g' & Hloop' & Hperm); [rewrite length_seq; lia|].
    rewrite Hloop in Hloop'. by injection Hloop' as -> _.
Qed.

(** *** What the loop asks of the engine *)

(** The recording engine hands out what the scripted engine hands out, and
    the loop entered at [i] asks for the ranges [[0, i]], ..., [[0, 1]] in
    this order, whatever it is handed. *)
Lemma fisher_yates_loop_recording {A} (i : nat) (s : list A)
    (ds : list nat) (asked : list (nat * nat)) :
  fisher_yates_loop i s ((ds, asked) : recording)
  = (λ r : list A * list nat, (r.1, (r.2, asked ++ requests_from i)))
      <$> fisher_yates_loop i s ds.
Proof.
  revert s ds asked. induction i as [|i IH]; intros s ds asked.
  - simpl. by rewrite app_nil_r.
  - cbn [fisher_yates_loop requests_from].
    change (uniform_int 0 (S i) ((ds, asked) : recording))
      with (let '(j, ds') := uniform_int (G:=scripted) 0 (S i) ds in
            (j, (ds', asked ++ [(0%nat, S i)]))).
    destruct (uniform_int (G:=scripted) 0 (S i) ds) as [j ds'].
    destruct (swap s (S i) j) as [s1|e]; [|done].
    cbn [mbind res_bind]. rewrite IH. by rewrite <-app_assoc.
Qed.

Lemma scripts_for_requests (n : nat) :
  scripts_for (requests_from n) = all_draws n.
Proof.
  induction n as [|n IH]; [done|].
  cbn [requests_from scripts_for all_draws]. rewrite IH.
  by rewrite Nat.sub_0_r.
Qed.

Lemma arrangement_run_script (n : nat) (ds : list nat) :
  arrangement n ds = run_script n (seq 0 (S n)) ds.
Proof.
  unfold arrangement, run_script. rewrite fisher_yates_loop_recording.
  by destruct (fisher_yates_loop n (seq 0 (S n)) ds) as [[??]|].
Qed.

(** C6. On an input of [n + 1] bytes the lambda asks the engine, whatever
    it is handed, for one draw from [[0, i]] for each [i = n, ..., 1] in
    this order, and swaps the positions [i] and [j]: on a sequence of such
    draws it returns the input rearranged by the arrangement of positions
    the draws produce.  The requested ranges have [(n + 1)!] sequences of
    draws, and every arrangement of the [n + 1] positions is produced by
    exactly one of them: with uniform independent draws every arrangement
    has probability [1 / (n + 1)!]. *)
Theorem scramble_string_unbiased (rd : N) (S : bytes) (n : nat) (p : list nat) :
  length S = Datatypes.S n →
  p ≡ₚ seq 0 (Datatypes.S n) →
  (∀ ds : list nat, ∃ out rest,
     ScrambleStringLambda rd S (Some ((ds, []) : recording))
     = Ok (out, Some (rest, requests_from n)))
  ∧ length (scripts_for (requests_from n)) = fact (Datatypes.S n)
  ∧ (∀ ds, ds ∈ scripts_for (requests_from n) →
       ∃ π, arrangement n ds = Ok π
            ∧ π ≡ₚ seq 0 (Datatypes.S n)
            ∧ ScrambleStringLambda rd S (Some ((ds, []) : recording))
              = Ok ((λ k, S !!! k) <$> π, Some ([], requests_from n)))
  ∧ length (filter (λ ds, arrangement n ds = Ok p)
                   (scripts_for (requests_from n))) = 1%nat.
Proof.
  intros HS Hp.
  assert (Hlambda : ∀ ds : list nat,
    ScrambleStringLambda rd S (Some ((ds, []) : recording))
    = (λ r : bytes * list nat, (r.1, Some (r.2, requests_from n)))
        <$> fisher_yates_loop n S ds).
  { intros ds. destruct S as [|b S']; [done|].
    unfold ScrambleStringLambda. cbv zeta.
    rewrite HS, Nat.sub_1_r. simpl pred.
    rewrite fisher_yates_loop_recording.
    by destruct (fisher_yates_loop n (b :: S') ds) as [[??]|]. }
  split; [|split; [|split]].
  - intros ds. rewrite Hlambda.
    destruct (fisher_yates_loop_Permutation n S ds) as (s' & g' & -> & _); [lia|].
    by exists s', g'.
  - rewrite scripts_for_requests. apply length_all_draws.
  - intros ds Hds. rewrite scripts_for_requests in Hds.
    apply elem_of_all_draws in Hds.
    destruct (shuffle_with_positions n ds Hds) as (π & Hloop & _ & Hperm).
    exists π. split; [|split; [done|]].
    + rewrite arrangement_run_script. unfold run_script. by rewrite Hloop.
    + rewrite Hlambda. rewrite <-(fmap_lookup_total_seq S) at 1.
      by rewrite HS, fisher_yates_loop_fmap, Hloop.
  - rewrite scripts_for_requests.
    destruct (run_script_bijective n (seq 0 (Datatypes.S n)) p)
      as (ds & Hvalid & Hrun & Huniq).
    { by rewrite length_seq. }
    { apply NoDup_seq. }
    { done. }
    apply (filter_unique_length _ _ ds).
    + apply NoDup_all_draws.
    + by apply elem_of_all_draws.
    + by rewrite arrangement_run_script.
    + intros ds' Hds' Hrun'. apply Huniq.
      * by apply elem_of_all_draws.
      * by rewrite <-arrangement_run_script.
Qed.

Lemma scramble_string_unbiased_witness :
  length (Str.of_string "abc") = 3%nat
  ∧ [2; 0; 1]%nat ≡ₚ seq 0 3
  ∧ (∃ out rest,
       ScrambleStringLambda 0%N (Str.of_string "abc")
         (Some (([5; 5]%nat, []) : recording))
       = Ok (out, Some (rest, [(0, 2); (0, 1)]%nat)))
  ∧ length (scripts_for [(0, 2); (0, 1)]%nat) = fact 3
  ∧ length (filter (λ ds, arrangement 2 ds = Ok [2; 0; 1]%nat)
                   (scripts_for [(0, 2); (0, 1)]%nat)) = 1%nat.
Proof.
  assert (Hperm : [2; 0; 1]%nat ≡ₚ seq 0 3).
  { simpl. etrans; [apply perm_swap|]. apply perm_skip, perm_swap. }
  split; [reflexivity|]. split; [exact Hperm|].
  destruct (scramble_string_unbiased 0%N (Str.of_string "abc") 2 [2; 0; 1]%nat
              eq_refl Hperm) as (Hasked & Hcount & _ & Hone).
  split; [exact (Hasked [5; 5]%nat)|].
  split; [exact Hcount | exact Hone].
Defined.

Example arrangement_all_scripts :
  (λ ds, arrangement 2 ds) <$> scripts_for (requests_from 2)
  = [Ok [1; 2; 0]; Ok [2; 1; 0]; Ok [2; 0; 1];
     Ok [0; 2; 1]; Ok [1; 0; 2]; Ok [0; 1; 2]]%nat.
Proof. vm_compute. reflexivity. Qed.

Example shuffle_with_all_scripts :
  (λ ds, shuffle_with ds (seq 0 3)) <$> all_draws 2
  = [Ok [1; 2; 0]; Ok [2; 1; 0]; Ok [2; 0; 1];
     Ok [0; 2; 1]; Ok [1; 0; 2]; Ok [0; 1; 2]]%nat.
Proof. vm_compute. reflexivity. Qed.

Example scramble_on_script :
  ScrambleStringLambda 0%N (Str.of_string "abc") (Some [0; 0]%nat)
  = Ok (Str.of_string "bca", Some []).
Proof. vm_compute. reflexivity. Qed.

(** ** The scenarios of the specification *)

Example mask_string_S1 :
  mask_string (Str.of_string "hello world") 3 5 (Str.of_string "*")
  = Ok (Str.of_string "he*****orld").
Proof. vm_compute. reflexivity. Qed.

Example mask_string_S2 :
  mask_string (Str.of_string "hello world") 1 5 (Str.of_string "*")
  = Ok (Str.of_string "***** world").
Proof. vm_compute. reflexivity. Qed.

Example mask_string_S3 :
  mask_string (Str.of_string "hello world") 1 100 (Str.of_string "*")
  = Ok (Str.of_string "***********").
Proof. vm_compute. reflexivity. Qed.

Example mask_string_S4 :
  mask_string (Str.of_string "abc") (-2) 2 (Str.of_string "#")
  = Ok (Str.of_string "##c").
Proof. vm_compute. reflexivity. Qed.

Example mask_string_S5 :
  mask_string (Str.of_string "abc") 10 5 (Str.of_string "#")
  = Ok (Str.of_string "abc").
Proof. vm_compute. reflexivity. Qed.

Example mask_email_S6 :
  mask_email (Str.of_string "johndoe@example.com")
  = Ok (Str.of_string "j******@example.com").
Proof. vm_compute. reflexivity. Qed.

Example mask_email_S7 :
  mask_email (Str.of_string "@x.com") = Ok (Str.of_string "@x.com").
Proof. vm_compute. reflexivity. Qed.

Example mask_email_S8 :
  mask_email (Str.of_string "noatsign") = Ok (Str.of_string "noatsign").
Proof. vm_compute. reflexivity. Qed.

Example mask_email_no_domain :
  mask_email (Str.of_string "a@") = Ok (Str.of_string "a@").
Proof. vm_compute. reflexivity. Qed.

Example scramble_string_S9 :
  ScrambleStringLambda (G:=N) 42%N (Str.of_string "") None = Ok ([], None).
Proof. vm_compute. reflexivity. Qed.

(** * Further properties of the evaluators *)

(** ** [mask_string]: the overwritten region *)

Lemma fits_string_t_representable (S : bytes) :
  fits_string_t S → Str.representable S.
Proof. unfold fits_string_t, Str.representable, Int.int64_max. lia. Qed.

Lemma masked_length_eq (S : bytes) (a b : nat) (c : byte) :
  (a ≤ b ≤ length S)%nat → length (masked S a b c) = length S.
Proof. apply masked_length. Qed.

(** The lambda overwrites the region between the clamped start and end. *)
Lemma mask_string_masked (S : bytes) (s n : Z) (c : byte) (rest : bytes) :
  Str.representable S →
  ∃ a b, (a ≤ b ≤ length S)%nat
         ∧ Z.of_nat a = mask_start (Str.size S) s
         ∧ Z.of_nat b = mask_end (Str.size S) (Z.of_nat a) n
         ∧ mask_string S s n (c :: rest) = Ok (masked S a b c).
Proof.
  intros HS. unfold mask_string.
  rewrite (MaskStringLambda_eval _ c rest) by done. cbv zeta.
  destruct (mask_bounds (Str.size S) s n (size_nonneg S)) as [Hab HbL].
  set (a := mask_start (Str.size S) s) in *.
  set (b := mask_end (Str.size S) a n) in *.
  exists (Z.to_nat a), (Z.to_nat b).
  rewrite !Z2Nat.id by lia. unfold Str.size in HbL.
  split; [lia|]. split; [done|]. split; [done|].
  unfold masked. by rewrite Z2Nat.inj_sub by lia.
Qed.

(** Two overlapping or adjacent regions, the second one written last. *)
Lemma masked_masked (S : bytes) (a a' b b' : nat) (c1 c2 : byte) :
  (a ≤ a')%nat → (a' ≤ b)%nat → (b ≤ b')%nat → (b' ≤ length S)%nat →
  masked (masked S a b c1) a' b' c2
  = take a S ++ replicate (a' - a) c1 ++ replicate (b' - a') c2 ++ drop b' S.
Proof.
  intros Ha Ha' Hb Hb'. unfold masked at 1.
  assert (Hta : length (take a S) = a) by (rewrite length_take; lia).
  assert (Htake : take a' (masked S a b c1) = take a S ++ replicate (a' - a) c1).
  { unfold masked. rewrite take_app, Hta, take_take.
    rewrite (take_app (replicate _ _)), take_replicate, length_replicate.
    replace (a' `min` a)%nat with a by lia.
    replace ((a' - a) `min` (b - a))%nat with (a' - a)%nat by lia.
    replace (a' - a - (b - a))%nat with 0%nat by lia.
    by rewrite take_0, app_nil_r. }
  assert (Hdrop : drop b' (masked S a b c1) = drop b' S).
  { unfold masked. rewrite drop_app, Hta.
    rewrite (drop_ge (take a S)) by lia.
    rewrite drop_app, length_replicate, drop_replicate, drop_drop. simpl.
    replace (b - a - (b' - a))%nat with 0%nat by lia. simpl.
    f_equal. lia. }
  rewrite Htake, Hdrop. by rewrite <-app_assoc.
Qed.

(** A start inside the string and a length that ends inside it select the
    region as given. *)
Lemma mask_string_in_range (S : bytes) (a b : nat) (c : byte) (rest : bytes) :
  Str.representable S → (a ≤ b ≤ length S)%nat →
  mask_string S (Z.of_nat a + 1) (Z.of_nat b - Z.of_nat a) (c :: rest)
  = Ok (masked S a b c).
Proof.
  intros HS Hab.
  destruct (mask_string_masked S (Z.of_nat a + 1) (Z.of_nat b - Z.of_nat a)
              c rest HS) as (a0 & b0 & _ & Ha0 & Hb0 & ->).
  assert (Hrep : Z.of_nat (length S) ≤ 2 ^ 63 - 1) by apply HS.
  unfold mask_start in Ha0. unfold Str.size in *.
  rewrite to_int64_id in Ha0
    by (unfold Int.is_int64, Int.int64_min, Int.int64_max; lia).
  assert (a0 = a) as -> by lia.
  unfold mask_end in Hb0.
  rewrite to_int64_id in Hb0
    by (unfold Int.is_int64, Int.int64_min, Int.int64_max; lia).
  assert (b0 = b) as -> by lia. done.
Qed.

Lemma masked_split (pre mid post : bytes) (c : byte) :
  masked (pre ++ mid ++ post) (length pre) (length pre + length mid) c
  = pre ++ replicate (length mid) c ++ post.
Proof.
  unfold masked. rewrite take_app_length. f_equal.
  replace (length pre + length mid - length pre)%nat with (length mid) by lia.
  f_equal. rewrite app_assoc.
  by rewrite drop_app_length' by (rewrite length_app; lia).
Qed.

(** X1. Called with the 1-based position of a part of the input and the
    length of that part, [mask_string] returns the input with exactly that
    part replaced by fill bytes: the bytes before and behind it are kept, and
    the result does not depend on the bytes of the part. *)
Theorem mask_string_replaces_region (pre mid post : bytes) (c : byte) (rest : bytes) :
  Str.representable (pre ++ mid ++ post) →
  mask_string (pre ++ mid ++ post)
    (Z.of_nat (length pre) + 1) (Z.of_nat (length mid)) (c :: rest)
  = Ok (pre ++ replicate (length mid) c ++ post).
Proof.
  intros HS. rewrite <-masked_split.
  rewrite <-(mask_string_in_range _ (length pre) (length pre + length mid) c rest).
  - f_equal. lia.
  - done.
  - rewrite !length_app. lia.
Qed.

Lemma mask_string_replaces_region_witness :
  Str.representable (Str.of_string "he" ++ Str.of_string "llo w" ++ Str.of_string "orld")
  ∧ mask_string (Str.of_string "he" ++ Str.of_string "llo w" ++ Str.of_string "orld")
      (Z.of_nat (length (Str.of_string "he")) + 1)
      (Z.of_nat (length (Str.of_string "llo w"))) (Str.of_string "*")
    = Ok (Str.of_string "he" ++ replicate (length (Str.of_string "llo w")) "*"%byte
            ++ Str.of_string "orld").
Proof.
  split; [vm_compute; discriminate|].
  apply (mask_string_replaces_region (Str.of_string "he") (Str.of_string "llo w")
           (Str.of_string "orld") "*"%byte []).
  vm_compute. discriminate.
Defined.

(** X2. For a start and a length in the range of the SQL type [INTEGER]
    (32 bits), under which the function is registered, and an input a
    [string_t] can hold, [mask_string] returns what the clamping rule
    describes: the bytes from [clamp(s - 1, 0, L)] up to [clamp(s0 + n, s0, L)]
    are replaced. *)
Theorem mask_string_int32_refines_spec (S : bytes) (s n : Z) (c : byte) (rest : bytes) :
  fits_string_t S → is_int32 s → is_int32 n →
  mask_string S s n (c :: rest) = Ok (mask_string_spec S s n c).
Proof.
  intros HS Hs Hn. pose proof (size_nonneg S) as HL.
  unfold fits_string_t, is_int32 in *.
  apply mask_string_refines_spec.
  - unfold Str.representable, Int.int64_max. lia.
  - unfold Int.int64_min, Int.int64_max. lia.
  - unfold Int.int64_min. lia.
  - unfold clamp, Int.int64_max. lia.
Qed.

Lemma mask_string_int32_refines_spec_witness :
  fits_string_t (Str.of_string "abc") ∧ is_int32 (-2) ∧ is_int32 2
  ∧ mask_string (Str.of_string "abc") (-2) 2 (Str.of_string "#")
    = Ok (mask_string_spec (Str.of_string "abc") (-2) 2 "#"%byte).
Proof.
  assert (H1 : fits_string_t (Str.of_string "abc")) by (vm_compute; reflexivity).
  assert (H2 : is_int32 (-2)) by (unfold is_int32; lia).
  assert (H3 : is_int32 2) by (unfold is_int32; lia).
  split; [exact H1|]. split; [exact H2|]. split; [exact H3|].
  apply (mask_string_int32_refines_spec (Str.of_string "abc") (-2) 2 "#"%byte []
           H1 H2 H3).
Defined.

(** X3. For lengths in the range of the SQL type [INTEGER] a larger length
    never yields fewer fill bytes. *)
Theorem mask_string_int32_count_mono (S : bytes) (s n1 n2 : Z) (c : byte) (rest : bytes) :
  fits_string_t S → is_int32 n1 → is_int32 n2 → n1 ≤ n2 →
  ∃ out1 out2,
    mask_string S s n1 (c :: rest) = Ok out1
    ∧ mask_string S s n2 (c :: rest) = Ok out2
    ∧ (count_byte c out1 ≤ count_byte c out2)%nat.
Proof.
  intros HS Hn1 Hn2 Hle.
  pose proof (fits_string_t_representable S HS) as Hrep.
  destruct (mask_string_masked S s n1 c rest Hrep) as (a1 & b1 & _ & _ & _ & H1).
  destruct (mask_string_masked S s n2 c rest Hrep) as (a2 & b2 & _ & _ & _ & H2).
  exists (masked S a1 b1 c), (masked S a2 b2 c). split; [done|]. split; [done|].
  apply (mask_string_count_mono S s n1 n2 c rest _ _); try done.
  - unfold is_int32, Int.int64_min in *. lia.
  - destruct (mask_bounds (Str.size S) s 0 (size_nonneg S)) as [Hab HbL].
    unfold fits_string_t, is_int32, Int.int64_max, mask_start, mask_end in *. lia.
Qed.

Lemma mask_string_int32_count_mono_witness :
  fits_string_t (Str.of_string "hello world") ∧ is_int32 2 ∧ is_int32 100 ∧ 2 ≤ 100
  ∧ ∃ out1 out2,
      mask_string (Str.of_string "hello world") 3 2 (Str.of_string "l") = Ok out1
      ∧ mask_string (Str.of_string "hello world") 3 100 (Str.of_string "l") = Ok out2
      ∧ (count_byte "l"%byte out1 ≤ count_byte "l"%byte out2)%nat.
Proof.
  assert (H1 : fits_string_t (Str.of_string "hello world")) by (vm_compute; reflexivity).
  assert (H2 : is_int32 2) by (unfold is_int32; lia).
  assert (H3 : is_int32 100) by (unfold is_int32; lia).
  assert (H4 : 2 ≤ 100) by lia.
  split; [exact H1|]. split; [exact H2|]. split; [exact H3|]. split; [exact H4|].
  apply (mask_string_int32_count_mono (Str.of_string "hello world") 3 2 100
           "l"%byte [] H1 H2 H3 H4).
Defined.

(** X4. For every 64-bit start and length, a length that is not positive or
    a start behind the last byte leaves the input unchanged, also where one
    of the two sums wraps. *)
Theorem mask_string_empty_region_unchanged (S : bytes) (s n : Z) (c : byte) (rest : bytes) :
  Str.representable S → Int.is_int64 s → Int.is_int64 n →
  n ≤ 0 ∨ s > Str.size S →
  mask_string S s n (c :: rest) = Ok S.
Proof.
  intros HS Hs Hn Hcase.
  destruct (mask_string_masked S s n c rest HS) as (a & b & Hab & Ha & Hb & ->).
  f_equal. enough (b = a) as ->.
  { unfold masked. rewrite Nat.sub_diag. simpl. apply take_drop. }
  pose proof (size_nonneg S) as HL.
  unfold mask_end, mask_start, Str.representable, Str.size,
    Int.is_int64, Int.int64_min, Int.int64_max in *.
  destruct Hcase as [Hn0|HsL].
  - rewrite (to_int64_id (Z.of_nat a + n)) in Hb
      by (unfold Int.is_int64, Int.int64_min, Int.int64_max; lia).
    lia.
  - rewrite (to_int64_id (s - 1)) in Ha
      by (unfold Int.is_int64, Int.int64_min, Int.int64_max; lia).
    lia.
Qed.

Lemma mask_string_empty_region_unchanged_witness :
  Str.representable (Str.of_string "abc")
  ∧ Int.is_int64 10 ∧ Int.is_int64 Int.int64_max
  ∧ mask_string (Str.of_string "abc") 10 Int.int64_max (Str.of_string "#")
    = Ok (Str.of_string "abc").
Proof.
  assert (H1 : Str.representable (Str.of_string "abc")) by (vm_compute; discriminate).
  assert (H2 : Int.is_int64 10) by (vm_compute; split; discriminate).
  assert (H3 : Int.is_int64 Int.int64_max) by (vm_compute; split; discriminate).
  split; [exact H1|]. split; [exact H2|]. split; [exact H3|].
  apply (mask_string_empty_region_unchanged (Str.of_string "abc") 10 Int.int64_max
           "#"%byte [] H1 H2 H3).
  right. vm_compute. reflexivity.
Defined.

(** X5. A start that is zero or negative (above the least 64-bit value)
    acts as start 1: the region begins at the first byte and still has the
    full length [n], for every input and every fourth column. *)
Theorem mask_string_nonpositive_start (mask_vector : list bytes) (S : bytes) (s n : Z) :
  Int.int64_min < s ≤ 0 →
  MaskStringLambda mask_vector S s n = MaskStringLambda mask_vector S 1 n.
Proof.
  intros Hs. unfold MaskStringLambda. cbv zeta.
  assert (Hstart : ∀ L, Z.max 0 (Z.min (Int.to_int64 (s - 1)) L)
                        = Z.max 0 (Z.min (Int.to_int64 (1 - 1)) L)).
  { intros L.
    rewrite (to_int64_id (s - 1)), (to_int64_id (1 - 1))
      by (unfold Int.is_int64, Int.int64_min, Int.int64_max in *; lia).
    lia. }
  by rewrite Hstart.
Qed.

Lemma mask_string_nonpositive_start_witness :
  Int.int64_min < -2 ≤ 0
  ∧ MaskStringLambda [Str.of_string "#"] (Str.of_string "abc") (-2) 2
    = MaskStringLambda [Str.of_string "#"] (Str.of_string "abc") 1 2.
Proof.
  assert (H : Int.int64_min < -2 ≤ 0) by (vm_compute; split; [reflexivity|discriminate]).
  split; [exact H|].
  apply (mask_string_nonpositive_start [Str.of_string "#"] (Str.of_string "abc")
           (-2) 2 H).
Defined.

(** X6. A length that reaches to the end of the input or beyond it masks
    to the end of the input and no further, as long as position plus length
    stays in the 64-bit range. *)
Theorem mask_string_masks_to_end (pre post : bytes) (n : Z) (c : byte) (rest : bytes) :
  Str.representable (pre ++ post) →
  Z.of_nat (length post) ≤ n →
  Z.of_nat (length pre) + n ≤ Int.int64_max →
  mask_string (pre ++ post) (Z.of_nat (length pre) + 1) n (c :: rest)
  = Ok (pre ++ replicate (length post) c).
Proof.
  intros HS Hn Hsum.
  destruct (mask_string_masked (pre ++ post) (Z.of_nat (length pre) + 1) n c rest HS)
    as (a & b & Hab & Ha & Hb & ->).
  f_equal. rewrite length_app in Hab.
  unfold mask_start, mask_end, Str.representable, Str.size, Int.int64_max in *.
  rewrite length_app in *.
  rewrite to_int64_id in Ha
    by (unfold Int.is_int64, Int.int64_min, Int.int64_max; lia).
  assert (a = length pre) as -> by lia.
  rewrite to_int64_id in Hb
    by (unfold Int.is_int64, Int.int64_min, Int.int64_max; lia).
  assert (b = (length pre + length post)%nat) as -> by lia.
  unfold masked. rewrite take_app_length.
  rewrite drop_ge by (rewrite length_app; lia).
  rewrite app_nil_r. do 2 f_equal. lia.
Qed.

Lemma mask_string_masks_to_end_witness :
  Str.representable (Str.of_string "he" ++ Str.of_string "llo")
  ∧ mask_string (Str.of_string "he" ++ Str.of_string "llo")
      (Z.of_nat (length (Str.of_string "he")) + 1) 100 (Str.of_string "*")
    = Ok (Str.of_string "he" ++ replicate (length (Str.of_string "llo")) "*"%byte).
Proof.
  split; [vm_compute; discriminate|].
  apply (mask_string_masks_to_end (Str.of_string "he") (Str.of_string "llo") 100
           "*"%byte []); vm_compute; discriminate.
Defined.

(** X7. Masking the result of a mask again with the same start and length
    gives the mask with the second fill byte: the second call overwrites the
    same region, and with the same fill byte it changes nothing.  This holds
    for every start and length. *)
Theorem mask_string_last_mask_wins (S out1 : bytes) (s n : Z) (c1 c2 : byte) (r1 r2 : bytes) :
  Str.representable S →
  mask_string S s n (c1 :: r1) = Ok out1 →
  mask_string out1 s n (c2 :: r2) = mask_string S s n (c2 :: r2).
Proof.
  intros HS Hout1.
  destruct (mask_string_masked S s n c1 r1 HS) as (a & b & Hab & Ha & Hb & H1).
  rewrite H1 in Hout1. injection Hout1 as <-.
  assert (Hlen : length (masked S a b c1) = length S) by by apply masked_length_eq.
  assert (HS1 : Str.representable (masked S a b c1)).
  { unfold Str.representable, Str.size in *. by rewrite Hlen. }
  destruct (mask_string_masked (masked S a b c1) s n c2 r2 HS1)
    as (a' & b' & _ & Ha' & Hb' & ->).
  destruct (mask_string_masked S s n c2 r2 HS) as (a2 & b2 & _ & Ha2 & Hb2 & ->).
  unfold Str.size in *. rewrite Hlen in Ha', Hb'.
  assert (a' = a) as -> by lia. assert (a2 = a) as -> by lia.
  assert (b' = b) as -> by lia. assert (b2 = b) as -> by lia.
  f_equal. rewrite masked_masked by lia.
  unfold masked. by rewrite Nat.sub_diag.
Qed.

Lemma mask_string_last_mask_wins_witness :
  Str.representable (Str.of_string "hello world")
  ∧ mask_string (Str.of_string "hello world") 3 5 (Str.of_string "*")
    = Ok (Str.of_string "he*****orld")
  ∧ mask_string (Str.of_string "he*****orld") 3 5 (Str.of_string "#")
    = mask_string (Str.of_string "hello world") 3 5 (Str.of_string "#").
Proof.
  assert (H1 : Str.representable (Str.of_string "hello world"))
    by (vm_compute; discriminate).
  assert (H2 : mask_string (Str.of_string "hello world") 3 5 (Str.of_string "*")
               = Ok (Str.of_string "he*****orld")) by (vm_compute; reflexivity).
  split; [exact H1|]. split; [exact H2|].
  apply (mask_string_last_mask_wins (Str.of_string "hello world")
           (Str.of_string "he*****orld") 3 5 "*"%byte "#"%byte [] [] H1 H2).
Defined.

(** The bounds of two adjacent regions, on the integers. *)
Lemma mask_bounds_adjacent (L s n1 n2 : Z) :
  0 ≤ L ≤ Int.int64_max →
  1 ≤ s → 0 ≤ n1 → 0 ≤ n2 → s + n1 + n2 ≤ Int.int64_max →
  mask_start L (s + n1) = mask_end L (mask_start L s) n1
  ∧ mask_end L (mask_end L (mask_start L s) n1) n2
    = mask_end L (mask_start L s) (n1 + n2).
Proof.
  intros HL Hs Hn1 Hn2 Hsum.
  assert (Hid : ∀ z, 0 ≤ z ≤ Int.int64_max → Int.to_int64 z = z).
  { intros z Hz. apply to_int64_id. unfold Int.is_int64, Int.int64_min.
    split; [|apply Hz]. assert (- 2 ^ 63 ≤ 0) by done. lia. }
  unfold mask_start, mask_end.
  rewrite (Hid (s - 1)), (Hid (s + n1 - 1)) by lia.
  rewrite (Hid (Z.max 0 (Z.min (s - 1) L) + n1)) by lia.
  rewrite (Hid (Z.max 0 (Z.min (s - 1) L) + (n1 + n2))) by lia.
  rewrite Hid by lia. lia.
Qed.

(** X8. Masking [n1] bytes from start [s] and then [n2] bytes from start
    [s + n1] is masking [n1 + n2] bytes from start [s], for a start of at
    least 1, lengths that are not negative and sums in the 64-bit range. *)
Theorem mask_string_adjacent_regions (S out1 : bytes) (s n1 n2 : Z) (c : byte) (rest : bytes) :
  Str.representable S →
  1 ≤ s → 0 ≤ n1 → 0 ≤ n2 → s + n1 + n2 ≤ Int.int64_max →
  mask_string S s n1 (c :: rest) = Ok out1 →
  mask_string out1 (s + n1) n2 (c :: rest) = mask_string S s (n1 + n2) (c :: rest).
Proof.
  intros HS Hs Hn1 Hn2 Hsum Hout1.
  destruct (mask_string_masked S s n1 c rest HS) as (a & b & Hab & Ha & Hb & H1).
  rewrite H1 in Hout1. injection Hout1 as <-.
  assert (Hlen : length (masked S a b c) = length S) by by apply masked_length_eq.
  assert (Hsize : Str.size (masked S a b c) = Str.size S).
  { unfold Str.size. by rewrite Hlen. }
  assert (HS1 : Str.representable (masked S a b c)).
  { unfold Str.representable. by rewrite Hsize. }
  destruct (mask_string_masked (masked S a b c) (s + n1) n2 c rest HS1)
    as (a' & b' & Hab' & Ha' & Hb' & ->).
  destruct (mask_string_masked S s (n1 + n2) c rest HS)
    as (a2 & b2 & Hab2 & Ha2 & Hb2 & ->).
  rewrite Hsize in Ha', Hb'.
  destruct (mask_bounds_adjacent (Str.size S) s n1 n2) as [Hadj1 Hadj2];
    try done.
  { split; [apply size_nonneg | apply HS]. }
  assert (a2 = a) as -> by lia.
  assert (a' = b) as ->.
  { apply Nat2Z.inj. rewrite Ha', Hadj1, Hb, Ha. done. }
  assert (b2 = b') as ->.
  { apply Nat2Z.inj. rewrite Hb2, Hb', Ha, <-Hadj2. by rewrite <-Ha, <-Hb. }
  f_equal. rewrite masked_masked by lia.
  unfold masked. f_equal.
  rewrite app_assoc, <-replicate_add. do 2 f_equal. lia.
Qed.

Lemma mask_string_adjacent_regions_witness :
  Str.representable (Str.of_string "hello world")
  ∧ mask_string (Str.of_string "hello world") 3 2 (Str.of_string "*")
    = Ok (Str.of_string "he**o world")
  ∧ mask_string (Str.of_string "he**o world") (3 + 2) 3 (Str.of_string "*")
    = mask_string (Str.of_string "hello world") 3 (2 + 3) (Str.of_string "*").
Proof.
  assert (H1 : Str.representable (Str.of_string "hello world"))
    by (vm_compute; discriminate).
  assert (H2 : mask_string (Str.of_string "hello world") 3 2 (Str.of_string "*")
               = Ok (Str.of_string "he**o world")) by (vm_compute; reflexivity).
  split; [exact H1|]. split; [exact H2|].
  apply (mask_string_adjacent_regions (Str.of_string "hello world")
           (Str.of_string "he**o world") 3 2 3 "*"%byte [] H1);
    [lia | lia | lia | vm_compute; discriminate | exact H2].
Defined.

(** ** [mask_email]: what the result shows and what it hides *)

(** X9. [mask_email] returns a string for every input and never changes
    the byte length. *)
Theorem mask_email_preserves_length (S : bytes) :
  Str.representable S →
  ∃ out, mask_email S = Ok out ∧ length out = length S.
Proof.
  intros HS. destruct (Str.find at_sign S) as [[|p]|] eqn:Hfind.
  - exists S. split; [|done]. apply mask_email_unchanged. by right.
  - destruct (mask_email_masked S (Datatypes.S p) HS Hfind)
      as (b & pre & post & -> & _ & _ & ->); [lia|].
    eexists. split; [done|]. simpl.
    by rewrite !length_app, length_replicate.
  - exists S. split; [|done]. apply mask_email_unchanged. by left.
Qed.

Lemma mask_email_preserves_length_witness :
  Str.representable (Str.of_string "johndoe@example.com")
  ∧ ∃ out, mask_email (Str.of_string "johndoe@example.com") = Ok out
           ∧ length out = length (Str.of_string "johndoe@example.com").
Proof.
  split; [vm_compute; discriminate|].
  apply (mask_email_preserves_length (Str.of_string "johndoe@example.com")).
  vm_compute. discriminate.
Defined.

(** X10. Of the local part the result shows the first byte and the length
    only: two addresses with the same first byte, local parts of the same
    length and the same text from the at sign on are masked to the same
    string. *)
Theorem mask_email_hides_local_part (b : byte) (pre1 pre2 post : bytes) :
  Str.representable (b :: pre1 ++ at_sign :: post) →
  at_sign ∉ b :: pre1 → at_sign ∉ b :: pre2 →
  length pre1 = length pre2 →
  mask_email (b :: pre1 ++ at_sign :: post)
  = mask_email (b :: pre2 ++ at_sign :: post).
Proof.
  intros HS H1 H2 Hlen.
  assert (HS2 : Str.representable (b :: pre2 ++ at_sign :: post)).
  { unfold Str.representable, Str.size in *. simpl in *.
    rewrite length_app in *. simpl in *. by rewrite <-Hlen. }
  rewrite !mask_email_split by done. by rewrite Hlen.
Qed.

Lemma mask_email_hides_local_part_witness :
  Str.representable ("j"%byte :: Str.of_string "ohndoe" ++ at_sign :: Str.of_string "x.com")
  ∧ mask_email ("j"%byte :: Str.of_string "ohndoe" ++ at_sign :: Str.of_string "x.com")
    = mask_email ("j"%byte :: Str.of_string "ackson" ++ at_sign :: Str.of_string "x.com").
Proof.
  split; [vm_compute; discriminate|].
  apply (mask_email_hides_local_part "j"%byte (Str.of_string "ohndoe")
           (Str.of_string "ackson") (Str.of_string "x.com")).
  - vm_compute. discriminate.
  - apply (bool_decide_unpack _). vm_compute. exact I.
  - apply (bool_decide_unpack _). vm_compute. exact I.
  - reflexivity.
Defined.

(** X11. The first at sign of the result is where the first at sign of the
    input is, and an input without one gives a result without one. *)
Theorem mask_email_keeps_first_at_sign (S out : bytes) :
  Str.representable S → mask_email S = Ok out →
  Str.find at_sign out = Str.find at_sign S.
Proof.
  intros HS Hout. destruct (Str.find at_sign S) as [[|p]|] eqn:Hfind.
  - rewrite mask_email_unchanged in Hout by (by right). by injection Hout as <-.
  - destruct (mask_email_masked S (Datatypes.S p) HS Hfind)
      as (b & pre & post & -> & [= ->] & Hnotin & Hmask); [lia|].
    rewrite Hmask in Hout. injection Hout as <-.
    pose proof (find_split at_sign (b :: replicate (length pre) asterisk) post)
      as Hsplit.
    simpl in Hsplit. rewrite length_replicate in Hsplit. apply Hsplit.
    apply not_elem_of_cons in Hnotin as [Hb _].
    apply not_elem_of_cons. split; [done|].
    intros Hin. by apply elem_of_replicate in Hin as [? _].
  - rewrite mask_email_unchanged in Hout by (by left). by injection Hout as <-.
Qed.

Lemma mask_email_keeps_first_at_sign_witness :
  Str.representable (Str.of_string "ab@c@d")
  ∧ mask_email (Str.of_string "ab@c@d") = Ok (Str.of_string "a*@c@d")
  ∧ Str.find at_sign (Str.of_string "a*@c@d")
    = Str.find at_sign (Str.of_string "ab@c@d").
Proof.
  assert (H1 : Str.representable (Str.of_string "ab@c@d")) by (vm_compute; discriminate).
  assert (H2 : mask_email (Str.of_string "ab@c@d") = Ok (Str.of_string "a*@c@d"))
    by (vm_compute; reflexivity).
  split; [exact H1|]. split; [exact H2|].
  apply (mask_email_keeps_first_at_sign (Str.of_string "ab@c@d")
           (Str.of_string "a*@c@d") H1 H2).
Defined.

(** X12. Where [mask_email] masks, it does what [mask_string] does with
    start 2, the length of the local part less one and an asterisk as the
    fill value. *)
Theorem mask_email_as_mask_string (S : bytes) (p : nat) :
  Str.representable S → first_at_sign S p → (0 < p)%nat →
  mask_email S = mask_string S 2 (Z.of_nat p - 1) [asterisk].
Proof.
  intros HS Hfirst Hp. apply first_at_sign_find in Hfirst.
  destruct (mask_email_masked S p HS Hfirst Hp)
    as (b & pre & post & -> & -> & _ & ->).
  pose proof (mask_string_in_range (b :: pre ++ at_sign :: post) 1
                (Datatypes.S (length pre)) asterisk [] HS) as Hmask.
  change (Z.of_nat 1 + 1) with 2 in Hmask.
  change (Z.of_nat 1) with 1 in Hmask.
  rewrite Hmask by (simpl; rewrite length_app; simpl; lia).
  f_equal.
  pose proof (masked_split [b] pre (at_sign :: post) asterisk) as Hsplit.
  simpl in Hsplit. by rewrite Hsplit.
Qed.

Lemma mask_email_as_mask_string_witness :
  Str.representable (Str.of_string "johndoe@example.com")
  ∧ first_at_sign (Str.of_string "johndoe@example.com") 7
  ∧ mask_email (Str.of_string "johndoe@example.com")
    = mask_string (Str.of_string "johndoe@example.com") 2 (Z.of_nat 7 - 1) [asterisk].
Proof.
  assert (H1 : Str.representable (Str.of_string "johndoe@example.com"))
    by (vm_compute; discriminate).
  assert (H2 : first_at_sign (Str.of_string "johndoe@example.com") 7)
    by (apply (proj2 (first_at_sign_find _ _)); vm_compute; reflexivity).
  split; [exact H1|]. split; [exact H2|].
  apply (mask_email_as_mask_string (Str.of_string "johndoe@example.com") 7 H1 H2).
  lia.
Defined.

(** ** Batches *)

(** X13. On a column with a value in each of the [count] rows,
    [MaskEmailScalarFun] returns [count] strings, and the string of row [i]
    is the masked address of input row [i]. *)
Theorem MaskEmailScalarFun_rows (email_vector : list bytes) (count : nat) :
  (count ≤ length email_vector)%nat →
  Forall Str.representable email_vector →
  ∃ out, MaskEmailScalarFun email_vector count = Ok out
         ∧ length out = count
         ∧ ∀ i S, (i < count)%nat → email_vector !! i = Some S →
                  out !! i = Some (mask_email_spec S).
Proof.
  intros Hcount Hrep. unfold MaskEmailScalarFun, UnaryExecutor.Execute.
  match goal with |- ∃ out, for_rows ?f 0 ?k = _ ∧ _ =>
    destruct (for_rows_total f 0 k) as [out Hout] end.
  { intros i Hi.
    destruct (GetValue_lt email_vector i) as (S & HS & ->); [lia|]. simpl.
    exists (mask_email_spec S). apply mask_email_refines_spec.
    by eapply (Forall_lookup_1 _ _ i S Hrep). }
  exists out. split; [done|].
  apply for_rows_Ok in Hout as [Hlen Hrows]. split; [done|].
  intros i S Hi HS.
  destruct (lookup_lt_is_Some_2 out i) as [r Hr]; [lia|].
  specialize (Hrows i r Hr). simpl in Hrows.
  apply GetValue_Ok in HS. rewrite HS in Hrows. simpl in Hrows.
  fold (mask_email S) in Hrows.
  rewrite mask_email_refines_spec in Hrows
    by (apply GetValue_Ok in HS; by eapply (Forall_lookup_1 _ _ i S Hrep)).
  by injection Hrows as <-.
Qed.

Lemma MaskEmailScalarFun_rows_witness :
  (2 ≤ length [Str.of_string "ab@c"; Str.of_string "@x"; Str.of_string "zz"])%nat
  ∧ ∃ out,
      MaskEmailScalarFun [Str.of_string "ab@c"; Str.of_string "@x"; Str.of_string "zz"] 2
      = Ok out
      ∧ length out = 2%nat
      ∧ ∀ i S, (i < 2)%nat →
               [Str.of_string "ab@c"; Str.of_string "@x"; Str.of_string "zz"] !! i = Some S →
               out !! i = Some (mask_email_spec S).
Proof.
  split; [simpl; lia|].
  apply (MaskEmailScalarFun_rows
           [Str.of_string "ab@c"; Str.of_string "@x"; Str.of_string "zz"] 2).
  - simpl. lia.
  - repeat constructor; vm_compute; discriminate.
Defined.

(** X14. With the same non-empty fill value in every row of the batch (the
    fourth argument is a constant), every output row is its input row with
    the bytes from the clamped start to the clamped end overwritten by the
    first byte of the fill value of that same row. *)
Theorem MaskStringScalarFun_constant_mask (args : MaskStringArgs) (c : byte) (rest : bytes) :
  chunk_wf args → constant_mask args →
  mask_vector args !! 0%nat = Some (c :: rest) →
  ∃ out, MaskStringScalarFun args = Ok out
         ∧ length out = mask_args_size args
         ∧ ∀ i S s n,
             (i < mask_args_size args)%nat →
             name_vector args !! i = Some S →
             start_vector args !! i = Some s →
             length_vector args !! i = Some n →
             ∃ (ci : byte) (resti : bytes) (a b : nat),
               mask_vector args !! i = Some (ci :: resti)
               ∧ (a ≤ b ≤ length S)%nat
               ∧ Z.of_nat a = mask_start (Str.size S) s
               ∧ Z.of_nat b = mask_end (Str.size S) (Z.of_nat a) n
               ∧ out !! i = Some (take a S ++ replicate (b - a) ci ++ drop b S).
Proof.
  intros Hwf Hconst Hrow0. unfold MaskStringScalarFun, TernaryExecutor.Execute.
  match goal with |- ∃ out, for_rows ?f 0 ?k = _ ∧ _ =>
    destruct (for_rows_total f 0 k) as [out Hout] end.
  { intros i Hi.
    destruct (chunk_wf_row args i Hwf) as (S & s & n & -> & -> & -> & HS); [lia|].
    simpl. rewrite (MaskStringLambda_eval _ c rest) by done. by eexists. }
  exists out. split; [done|].
  apply for_rows_Ok in Hout as [Hlen Hrows]. split; [done|].
  intros i S s n Hi HS Hs Hn.
  destruct (lookup_lt_is_Some_2 out i) as [r Hr]; [lia|].
  specialize (Hrows i r Hr). simpl in Hrows.
  destruct (chunk_wf_row args i Hwf Hi) as (S' & s' & n' & HS' & Hs' & Hn' & Hrep).
  apply GetValue_Ok in HS, Hs, Hn.
  rewrite HS in HS'. rewrite Hs in Hs'. rewrite Hn in Hn'.
  injection HS' as <-. injection Hs' as <-. injection Hn' as <-.
  rewrite HS, Hs, Hn in Hrows. simpl in Hrows.
  destruct (mask_string_masked S s n c rest Hrep) as (a & b & Hab & Ha & Hb & Hmask).
  exists c, rest, a, b.
  split; [by rewrite (Hconst i Hi)|]. split; [done|]. split; [done|]. split; [done|].
  rewrite Hr. f_equal.
  rewrite (MaskStringLambda_first_byte _ c rest _ _ _ Hrow0) in Hrows.
  rewrite <-(MaskStringLambda_first_byte ((c :: rest) :: []) c rest S s n eq_refl) in Hrows.
  fold (mask_string S s n (c :: rest)) in Hrows.
  rewrite Hmask in Hrows. by injection Hrows as <-.
Qed.

Lemma MaskStringScalarFun_constant_mask_witness :
  chunk_wf (with_mask_vector example_chunk
              [Str.of_string "#"; Str.of_string "#"; Str.of_string "#"])
  ∧ ∃ out,
      MaskStringScalarFun (with_mask_vector example_chunk
                             [Str.of_string "#"; Str.of_string "#"; Str.of_string "#"])
      = Ok out
      ∧ length out = 3%nat
      ∧ ∃ (ci : byte) (resti : bytes) (a b : nat),
          [Str.of_string "#"; Str.of_string "#"; Str.of_string "#"] !! 1%nat
            = Some (ci :: resti)
          ∧ (a ≤ b ≤ length (Str.of_string "abc"))%nat
          ∧ Z.of_nat a = mask_start (Str.size (Str.of_string "abc")) (-2)
          ∧ Z.of_nat b = mask_end (Str.size (Str.of_string "abc")) (Z.of_nat a) 2
          ∧ out !! 1%nat
            = Some (take a (Str.of_string "abc") ++ replicate (b - a) ci
                      ++ drop b (Str.of_string "abc")).
Proof.
  assert (Hwf : chunk_wf (with_mask_vector example_chunk
                  [Str.of_string "#"; Str.of_string "#"; Str.of_string "#"])).
  { unfold chunk_wf. repeat split; try (simpl; lia).
    repeat constructor; vm_compute; discriminate. }
  split; [exact Hwf|].
  destruct (MaskStringScalarFun_constant_mask
              (with_mask_vector example_chunk
                 [Str.of_string "#"; Str.of_string "#"; Str.of_string "#"])
              "#"%byte [] Hwf) as (out & Hout & Hlen & Hrows).
  - intros [|[|[|i]]] Hi; simpl in *; (reflexivity || lia).
  - reflexivity.
  - exists out. split; [exact Hout|]. split; [exact Hlen|].
    apply (Hrows 1%nat (Str.of_string "abc") (-2) 2); [simpl; lia|reflexivity..].
Defined.

(** *** The stateful row loop *)

Lemma for_rows_with_state_inv {St B} (I : St → Prop)
    (f1 f2 : nat → St → res (B * St)) (first count : nat) (st : St) :
  (∀ i st, I st → f1 i st = f2 i st) →
  (∀ i st r st', I st → f1 i st = Ok (r, st') → I st') →
  I st →
  for_rows_with_state f1 first count st = for_rows_with_state f2 first count st
  ∧ ∀ out st', for_rows_with_state f1 first count st = Ok (out, st') → I st'.
Proof.
  intros Heq Hstep. revert first st.
  induction count as [|count IH]; intros first st Hst; simpl.
  - split; [done|]. by intros out st' [= _ <-].
  - rewrite <-(Heq first st Hst).
    destruct (f1 first st) as [[r st1]|e] eqn:Hf; simpl; [|done].
    destruct (IH (S first) st1) as [IHeq IHinv]; [by eapply Hstep|].
    rewrite <-IHeq. split; [done|].
    destruct (for_rows_with_state f1 (S first) count st1) as [[rs st2]|e];
      simpl; [|done].
    intros out st' [= _ <-]. by eapply IHinv.
Qed.

Lemma for_rows_with_state_Ok {St B} (P : nat → B → Prop)
    (f : nat → St → res (B * St)) (first count : nat) (st : St) :
  (∀ i st, (first ≤ i < first + count)%nat →
           ∃ r st', f i st = Ok (r, st') ∧ P i r) →
  ∃ out st', for_rows_with_state f first count st = Ok (out, st')
             ∧ length out = count
             ∧ ∀ k r, out !! k = Some r → P (first + k)%nat r.
Proof.
  revert first st. induction count as [|count IH]; intros first st Hf; simpl.
  - exists [], st. split; [done|]. split; [done|]. intros k r Hk.
    by rewrite lookup_nil in Hk.
  - destruct (Hf first st) as (r0 & st1 & -> & HP); [lia|]. simpl.
    destruct (IH (S first) st1) as (rs & st2 & -> & Hlen & Hrows).
    { intros i st' Hi. apply Hf. lia. }
    simpl. exists (r0 :: rs), st2. split; [done|]. split; [simpl; by rewrite Hlen|].
    intros [|k] r Hk; simpl in Hk.
    + injection Hk as <-. by rewrite Nat.add_0_r.
    + replace (first + S k)%nat with (S first + k)%nat by lia. by apply Hrows.
Qed.

(** ** [scramble_string]: batches and the engine of the thread *)

Lemma ScrambleStringLambda_Permutation `{UniformRandomBitGenerator G}
    (rd : N) (S : bytes) (ts : thread_state G) :
  ∃ out ts', ScrambleStringLambda rd S ts = Ok (out, ts') ∧ out ≡ₚ S.
Proof.
  destruct S as [|b S]; simpl.
  - by exists [], ts.
  - rewrite Nat.sub_0_r.
    destruct (fisher_yates_loop_Permutation (length S) (b :: S)
                (match ts with Some g => g | None => seed_engine rd end))
      as (s' & g' & -> & Hperm); [simpl; lia|].
    simpl. by exists s', (Some g').
Qed.

(** X15. On a column with a value in each of the [count] rows,
    [ScrambleStringScalarFun] returns [count] strings for every engine and
    every state of the thread, and the string of row [i] is a rearrangement
    of the bytes of input row [i]. *)
Theorem ScrambleStringScalarFun_rows `{UniformRandomBitGenerator G}
    (rd : N) (input_vector : list bytes) (count : nat) (ts : thread_state G) :
  (count ≤ length input_vector)%nat →
  ∃ out ts', ScrambleStringScalarFun rd input_vector count ts = Ok (out, ts')
             ∧ length out = count
             ∧ ∀ i S r, input_vector !! i = Some S → out !! i = Some r → r ≡ₚ S.
Proof.
  intros Hcount. unfold ScrambleStringScalarFun, UnaryExecutor.ExecuteWithState.
  match goal with |- ∃ out ts', for_rows_with_state ?f 0 ?k ?st = _ ∧ _ =>
    destruct (for_rows_with_state_Ok
                (λ i r, ∀ S, input_vector !! i = Some S → r ≡ₚ S) f 0 k st)
      as (out & ts' & Hout & Hlen & Hrows) end.
  { intros i st Hi.
    destruct (GetValue_lt input_vector i) as (S & HS & ->); [lia|]. simpl.
    destruct (ScrambleStringLambda_Permutation rd S st) as (r & st' & -> & Hperm).
    exists r, st'. split; [done|]. intros S' HS'. congruence. }
  exists out, ts'. split; [done|]. split; [done|].
  intros i S r HS Hr. by apply (Hrows i r Hr).
Qed.

Lemma ScrambleStringScalarFun_rows_witness :
  (2 ≤ length [Str.of_string "password"; Str.of_string ""])%nat
  ∧ ∃ out ts',
      ScrambleStringScalarFun (G:=N) 42%N
        [Str.of_string "password"; Str.of_string ""] 2 None = Ok (out, ts')
      ∧ length out = 2%nat
      ∧ ∀ i S r, [Str.of_string "password"; Str.of_string ""] !! i = Some S →
                 out !! i = Some r → r ≡ₚ S.
Proof.
  split; [simpl; lia|].
  apply (ScrambleStringScalarFun_rows (G:=N) 42%N
           [Str.of_string "password"; Str.of_string ""] 2 None).
  simpl. lia.
Defined.

(** X16. A string of equal bytes is returned as it is, by every engine in
    every state: scrambling cannot hide such a string. *)
Theorem scramble_string_constant `{UniformRandomBitGenerator G}
    (rd : N) (k : nat) (c : byte) (ts : thread_state G) :
  ∃ ts', ScrambleStringLambda rd (replicate k c) ts = Ok (replicate k c, ts').
Proof.
  destruct (ScrambleStringLambda_Permutation rd (replicate k c) ts)
    as (out & ts' & -> & Hperm).
  exists ts'. do 2 f_equal. symmetry. apply replicate_as_Forall. split.
  - by rewrite Hperm, length_replicate.
  - rewrite Hperm. apply Forall_replicate_eq.
Qed.

Lemma ScrambleStringLambda_seeded `{UniformRandomBitGenerator G}
    (rd1 rd2 : N) (S : bytes) (g : G) :
  ScrambleStringLambda rd1 S (Some g) = ScrambleStringLambda rd2 S (Some g)
  ∧ ∀ out ts', ScrambleStringLambda rd1 S (Some g) = Ok (out, ts') → is_Some ts'.
Proof.
  destruct S as [|b S]; simpl.
  - split; [done|]. intros out ts' [= _ <-]. by eexists.
  - split; [done|].
    destruct (fisher_yates_loop (length S - 0) (b :: S) g) as [[s' g']|e];
      simpl; [|done].
    intros out ts' [= _ <-]. by eexists.
Qed.

(** X17. Once the engine of a thread exists, a scramble call does not
    consult the entropy source: the batch result is the same whatever
    [std::random_device] would hand out, and the thread keeps an engine. *)
Theorem scramble_seeded_thread_ignores_entropy `{UniformRandomBitGenerator G}
    (rd1 rd2 : N) (input_vector : list bytes) (count : nat) (g : G) :
  ScrambleStringScalarFun rd1 input_vector count (Some g)
  = ScrambleStringScalarFun rd2 input_vector count (Some g)
  ∧ ∀ out ts', ScrambleStringScalarFun rd1 input_vector count (Some g)
               = Ok (out, ts') → is_Some ts'.
Proof.
  unfold ScrambleStringScalarFun, UnaryExecutor.ExecuteWithState.
  apply (for_rows_with_state_inv is_Some).
  - intros i st [g' ->]. destruct (GetValue input_vector i) as [S|]; [|done].
    simpl. apply (proj1 (ScrambleStringLambda_seeded rd1 rd2 S g')).
  - intros i st r st' [g' ->].
    destruct (GetValue input_vector i) as [S|]; [|done]. simpl.
    apply (proj2 (ScrambleStringLambda_seeded rd1 rd1 S g')).
  - by eexists.
Qed.

(** *** Splitting a batch *)







(** *** The engine is constructed by the first row that is not empty *)



(** ** [mask_string]: the bytes outside the requested window *)

Lemma masked_lookup_outside (S : bytes) (a b k : nat) (c : byte) :
  (a ≤ b ≤ length S)%nat → (k < a ∨ b ≤ k)%nat →
  masked S a b c !! k = S !! k.
Proof.
  intros Hab Hk. unfold masked.
  assert (Hta : length (take a S) = a) by (rewrite length_take; lia).
  destruct Hk as [Hk|Hk].
  - rewrite lookup_app_l by lia. by apply lookup_take_lt.
  - rewrite lookup_app_r by lia. rewrite lookup_app_r
      by (rewrite length_replicate; lia).
    rewrite lookup_drop, Hta, length_replicate. f_equal. lia.
Qed.

(** X20. For a start of at least 1 and every 64-bit length, [mask_string]
    changes no byte outside the window [s - 1 .. s - 1 + n): this also holds
    where [start + length] wraps. *)
Theorem mask_string_keeps_outside_window (S out : bytes) (s n : Z) (c : byte)
    (rest : bytes) (k : nat) :
  Str.representable S →
  1 ≤ s ≤ Int.int64_max → Int.is_int64 n →
  mask_string S s n (c :: rest) = Ok out →
  Z.of_nat k < s - 1 ∨ s - 1 + n ≤ Z.of_nat k →
  out !! k = S !! k.
Proof.
  intros HS Hs Hn Hout Hk.
  destruct (mask_string_masked S s n c rest HS) as (a & b & Hab & Ha & Hb & H1).
  rewrite H1 in Hout. injection Hout as <-.
  apply masked_lookup_outside; [done|].
  unfold mask_start, mask_end, Str.representable, Str.size,
    Int.is_int64, Int.int64_min, Int.int64_max in *.
  rewrite (to_int64_id (s - 1)) in Ha
    by (unfold Int.is_int64, Int.int64_min, Int.int64_max; lia).
  destruct (Z.le_gt_cases 0 (Z.of_nat a + n)) as [Hpos|Hneg].
  - pose proof (to_int64_le (Z.of_nat a + n) Hpos). lia.
  - rewrite (to_int64_id (Z.of_nat a + n)) in Hb
      by (unfold Int.is_int64, Int.int64_min, Int.int64_max; lia).
    lia.
Qed.

Lemma mask_string_keeps_outside_window_witness :
  Str.representable (Str.of_string "hello world")
  ∧ mask_string (Str.of_string "hello world") 3 5 (Str.of_string "*")
    = Ok (Str.of_string "he*****orld")
  ∧ Str.of_string "he*****orld" !! 8%nat = Str.of_string "hello world" !! 8%nat.
Proof.
  assert (H1 : Str.representable (Str.of_string "hello world"))
    by (vm_compute; discriminate).
  assert (H2 : mask_string (Str.of_string "hello world") 3 5 (Str.of_string "*")
               = Ok (Str.of_string "he*****orld")) by (vm_compute; reflexivity).
  split; [exact H1|]. split; [exact H2|].
  apply (mask_string_keeps_outside_window (Str.of_string "hello world")
           (Str.of_string "he*****orld") 3 5 "*"%byte [] 8 H1).
  - vm_compute. split; discriminate.
  - vm_compute. split; discriminate.
  - exact H2.
  - right. lia.
Defined.
